(** * rasl.tform: parameter-vector transforms with a framing matrix

    A shallow embedding of [rasl/tform.py] (class [ParamvMixin] and its six
    family subclasses).  numpy arrays are buffers in a store addressed by
    references, so that the sharing left behind by [copy.copy] is visible;
    array elements are IEEE-754 binary64 numbers, taken from the Standard
    Library's executable [SpecFloat] model. *)

From Stdlib Require Import ZArith Bool List Lia.
From Stdlib Require Import SpecFloat.
From stdpp Require Import base option list gmap.

Set Default Proof Using "Type".

#[local] Open Scope Z_scope.

(* ===================================================================== *)
(** ** binary64 scalars, as numpy's [dtype=float] *)
(* ===================================================================== *)

Module F64.

Definition prec : Z := 53.
Definition emax : Z := 1024.

Definition float : Type := spec_float.

Definition nan : float := S754_nan.
Definition pinf : float := S754_infinity false.
Definition ninf : float := S754_infinity true.
Definition zero : float := S754_zero false.

(** The float nearest to an integer, as numpy converts a Python [int]. *)
Definition of_Z (z : Z) : float := binary_normalize prec emax z 0 false.

Definition one : float := of_Z 1.
Definition two : float := of_Z 2.

Definition add : float -> float -> float := SFadd prec emax.
Definition sub : float -> float -> float := SFsub prec emax.
Definition mul : float -> float -> float := SFmul prec emax.
Definition div : float -> float -> float := SFdiv prec emax.
Definition opp : float -> float := SFopp.

Definition eqb : float -> float -> bool := SFeqb.
Definition ltb : float -> float -> bool := SFltb.

Definition is_nan (x : float) : bool :=
  match x with S754_nan => true | _ => false end.

(** [np.isfinite] *)
Definition isfinite (x : float) : bool :=
  match x with
  | S754_zero _ | S754_finite _ _ _ => true
  | S754_infinity _ | S754_nan => false
  end.

(** Largest finite binary64, [np.finfo(float).max]. *)
Definition max_float : float := SFmax_float prec emax.

(** [np.floor]: the largest integral float not above [x]; zeros, infinities
    and NaN are returned as they are. *)
Definition floor (x : float) : float :=
  match x with
  | S754_finite s m e =>
      if 0 <=? e then x
      else
        let d := 2 ^ (- e) in
        let q := Z.pos m / d in
        let r := Z.pos m mod d in
        if s then binary_normalize prec emax (- (if r =? 0 then q else q + 1)) 0 true
        else binary_normalize prec emax q 0 false
  | _ => x
  end.

(** One element of [np.nan_to_num]: NaN becomes 0.0 and the infinities
    become the finite numbers of largest magnitude. *)
Definition nan_to_num (x : float) : float :=
  match x with
  | S754_nan => zero
  | S754_infinity false => max_float
  | S754_infinity true => opp max_float
  | _ => x
  end.

End F64.

Abbreviation float := F64.float.
Abbreviation Fz := F64.of_Z.

(* ===================================================================== *)
(** ** Arrays, the store, and transform instances *)
(* ===================================================================== *)

(** A 3x3 array, row by row. *)
Record mat3 : Type := Mat3 {
  m00 : float; m01 : float; m02 : float;
  m10 : float; m11 : float; m12 : float;
  m20 : float; m21 : float; m22 : float
}.

(** [np.eye(3)] *)
Definition eye3 : mat3 :=
  Mat3 F64.one F64.zero F64.zero
       F64.zero F64.one F64.zero
       F64.zero F64.zero F64.one.

(** One entry of a product: the three products summed from left to right. *)
Definition dot3 (a0 a1 a2 b0 b1 b2 : float) : float :=
  F64.add (F64.add (F64.mul a0 b0) (F64.mul a1 b1)) (F64.mul a2 b2).

(** [a.dot(b)] on 3x3 arrays. *)
Definition dot (a b : mat3) : mat3 :=
  Mat3
    (dot3 (m00 a) (m01 a) (m02 a) (m00 b) (m10 b) (m20 b))
    (dot3 (m00 a) (m01 a) (m02 a) (m01 b) (m11 b) (m21 b))
    (dot3 (m00 a) (m01 a) (m02 a) (m02 b) (m12 b) (m22 b))
    (dot3 (m10 a) (m11 a) (m12 a) (m00 b) (m10 b) (m20 b))
    (dot3 (m10 a) (m11 a) (m12 a) (m01 b) (m11 b) (m21 b))
    (dot3 (m10 a) (m11 a) (m12 a) (m02 b) (m12 b) (m22 b))
    (dot3 (m20 a) (m21 a) (m22 a) (m00 b) (m10 b) (m20 b))
    (dot3 (m20 a) (m21 a) (m22 a) (m01 b) (m11 b) (m21 b))
    (dot3 (m20 a) (m21 a) (m22 a) (m02 b) (m12 b) (m22 b)).

(** The arrays the class keeps: 1-D vectors (parameter vector, output
    shape) and 3x3 matrices (matrix, frame, params). *)
Inductive ndarray : Type :=
  | Vec (v : list float)
  | Mat (m : mat3).

(** References to array buffers; the store maps each live reference to the
    buffer's current content. *)
Abbreviation ref := positive.
Abbreviation heap := (gmap positive ndarray).

(** The [_ttype] class attribute of the six subclasses. *)
Inductive ttype : Type :=
  | translate | scale | rotate | similarity | affine | projective.

(** The attributes of an instance.  [None] is an attribute that has not
    been assigned yet (or, for [_output_shape], that holds Python's None);
    [Some r] is an attribute bound to the buffer [r]. *)
Record tform : Type := TForm {
  _ttype : ttype;
  _paramv : option ref;
  _matrix : option ref;
  _frame : option ref;
  params : option ref;
  _output_shape : option ref
}.

Definition with_paramv (r : ref) (t : tform) : tform :=
  TForm (_ttype t) (Some r) (_matrix t) (_frame t) (params t) (_output_shape t).
Definition with_matrix (r : ref) (t : tform) : tform :=
  TForm (_ttype t) (_paramv t) (Some r) (_frame t) (params t) (_output_shape t).
Definition with_frame (r : ref) (t : tform) : tform :=
  TForm (_ttype t) (_paramv t) (_matrix t) (Some r) (params t) (_output_shape t).
Definition with_params (r : ref) (t : tform) : tform :=
  TForm (_ttype t) (_paramv t) (_matrix t) (_frame t) (Some r) (_output_shape t).
Definition with_output_shape (r : option ref) (t : tform) : tform :=
  TForm (_ttype t) (_paramv t) (_matrix t) (_frame t) (params t) r.

(** What a call can raise. *)
Inductive exn : Type :=
  | NanGiven        (* ValueError("NAN given to imtransform" ...) *)
  | CodecError      (* raised inside the toolbox codec *)
  | WarpError       (* raised inside the resampling primitive *)
  | AttributeError. (* an attribute is unset or is not an array of the expected kind *)

Inductive outcome (A : Type) : Type :=
  | Return (a : A)
  | Raise (e : exn).
Arguments Return {A} a.
Arguments Raise {A} e.

(** Method bodies run on the store and on [self].  An exception leaves the
    assignments made before it in place. *)
Definition state : Type := heap * tform.
Definition M (A : Type) : Type := state -> outcome A * state.

#[export] Instance M_ret : MRet M := fun A a s => (Return a, s).
#[export] Instance M_bind : MBind M := fun A B f c s =>
  match c s with
  | (Return a, s') => f a s'
  | (Raise e, s') => (Raise e, s')
  end.

Definition raise {A} (e : exn) : M A := fun s => (Raise e, s).

(** A fresh buffer holding [a]: what [np.array(..., copy=True)], [np.eye],
    [dot] and the codec hand back. *)
Definition new_array (a : ndarray) : M ref := fun s =>
  let l := fresh (dom s.1) in (Return l, (<[l := a]> s.1, s.2)).

(** [self.<attr> = <buffer>] *)
Definition assign (upd : tform -> tform) : M unit := fun s =>
  (Return tt, (s.1, upd s.2)).

(** Read the 3x3 array an attribute is bound to. *)
Definition read_mat (attr : tform -> option ref) : M mat3 := fun s =>
  match attr s.2 with
  | Some r =>
      match s.1 !! r with
      | Some (Mat m) => (Return m, s)
      | _ => (Raise AttributeError, s)
      end
  | None => (Raise AttributeError, s)
  end.

(** Read the 1-D array an attribute is bound to. *)
Definition read_vec (attr : tform -> option ref) : M (list float) := fun s =>
  match attr s.2 with
  | Some r =>
      match s.1 !! r with
      | Some (Vec v) => (Return v, s)
      | _ => (Raise AttributeError, s)
      end
  | None => (Raise AttributeError, s)
  end.

(** [self._ttype] *)
Definition read_ttype : M ttype := fun s => (Return (_ttype s.2), s).

(** The call of an external function that either returns or raises. *)
Definition call {A} (e : exn) (r : option A) : M A :=
  match r with Some a => mret a | None => raise e end.

(** A 2-D image, row by row. *)
Definition image : Type := list (list float).

(** [np.all(image == image)]: elementwise self-comparison, false exactly at
    NaN elements. *)
Definition all_self_equal (img : image) : bool :=
  forallb (forallb (fun x => F64.eqb x x)) img.

(** The [mode] argument of the resampling primitive. *)
Inductive warp_mode : Type :=
  | constant | edge | symmetric | reflect | wrap.

(** The arguments of one call of [tf.warp]. *)
Record warp_call : Type := WarpCall {
  w_image : image;
  w_matrix : mat3;
  w_order : nat;
  w_mode : warp_mode;
  w_cval : float;
  w_preserve_range : bool;
  w_output_shape : option (list float)
}.

(** The [frame] argument of [inset]: a 0-d array (pixel width), an array of
    size 2 (cropped size, centred), or a 2x2 array of boundary points. *)
Inductive frame_spec : Type :=
  | Width (w : float)
  | Size (h w : float)
  | Box (r0 c0 r1 c1 : float).

(** A 2x2 bounds array [((b00, b01), (b10, b11))]: row 0 the minimum point,
    row 1 the maximum point, each in (row, col) order. *)
Definition bounds2 : Type := (float * float) * (float * float).

(** Lines 174-181 of [inset]: bounds before negative indices are resolved. *)
Definition raw_bounds (shape : float * float) (frame : frame_spec) : bounds2 :=
  match frame with
  | Width w =>
      ((w, w), (F64.sub (F64.opp w) F64.one, F64.sub (F64.opp w) F64.one))
  | Size h w =>
      let i0 := F64.div (F64.sub shape.1 h) F64.two in
      let i1 := F64.div (F64.sub shape.2 w) F64.two in
      ((F64.floor i0, F64.floor i1),
       (F64.floor (F64.sub (F64.opp i0) F64.one),
        F64.floor (F64.sub (F64.opp i1) F64.one)))
  | Box r0 c0 r1 c1 => ((r0, c0), (r1, c1))
  end.

(** One element of [np.where(bounds < 0, shape + bounds, bounds)]. *)
Definition wrap_negative (dim v : float) : float :=
  if F64.ltb v F64.zero then F64.add dim v else v.

(** Line 182: [shape] is broadcast along the rows of [bounds]. *)
Definition resolve_negative (shape : float * float) (b : bounds2) : bounds2 :=
  ((wrap_negative shape.1 b.1.1, wrap_negative shape.2 b.1.2),
   (wrap_negative shape.1 b.2.1, wrap_negative shape.2 b.2.2)).

Definition resolved_bounds (shape : float * float) (frame : frame_spec) : bounds2 :=
  resolve_negative shape (raw_bounds shape frame).

(** Lines 183-188: the scale pair, in (row, col) order. *)
Definition inset_scale (shape : float * float) (b : bounds2) (crop : bool)
  : float * float :=
  if crop then (F64.one, F64.one)
  else (F64.div (F64.sub b.2.1 b.1.1) (F64.sub shape.1 F64.one),
        F64.div (F64.sub b.2.2 b.1.2) (F64.sub shape.2 F64.one)).

(** Lines 183-188: the array assigned to [_output_shape]. *)
Definition inset_output_shape (shape : float * float) (b : bounds2) (crop : bool)
  : list float :=
  if crop then [F64.add (F64.sub b.2.1 b.1.1) F64.one;
                F64.add (F64.sub b.2.2 b.1.2) F64.one]
  else [shape.1; shape.2].

(** Line 191: the parameter list handed to the codec. *)
Definition inset_params (scale : float * float) (b : bounds2) : list float :=
  [scale.2; F64.zero; b.1.2; F64.zero; scale.1; b.1.1].

(** One element of the post-processing of [imtransform] (lines 140-143). *)
Definition fill_value (cval x : float) : float :=
  if F64.eqb cval F64.zero then F64.nan_to_num x
  else if F64.isfinite cval then (if F64.isfinite x then x else cval)
  else x.

(** Lines 140-143 on the whole warped image. *)
Definition fill (cval : float) (timage : image) : image :=
  if F64.eqb cval F64.zero then map (map F64.nan_to_num) timage
  else if F64.isfinite cval then
    map (map (fun x => if F64.isfinite x then x else cval)) timage
  else timage.

(* ===================================================================== *)
(** ** The class, over its external collaborators *)
(* ===================================================================== *)

Section ParamvMixin.

(** The codec of [rasl.toolbox]; [None] stands for a raised exception. *)
Variable parameters_to_projective_matrix : ttype -> list float -> option mat3.
Variable projective_matrix_to_parameters : ttype -> mat3 -> option (list float).

(** [skimage.transform.warp]; [None] stands for a raised exception. *)
Variable warp : warp_call -> option image.

(** The [paramv] setter (lines 71-78). *)
Definition set_paramv (paramv : list float) : M unit :=
  p ← new_array (Vec paramv);
  assign (with_paramv p);;
  ty ← read_ttype;
  m ← call CodecError (parameters_to_projective_matrix ty paramv);
  r ← new_array (Mat m);
  assign (with_matrix r);;
  f ← read_mat _frame;
  a ← read_mat _matrix;
  e ← new_array (Mat (dot f a));
  assign (with_params e).

(** The [frame] setter (lines 87-93). *)
Definition set_frame (frame : mat3) : M unit :=
  r ← new_array (Mat frame);
  assign (with_frame r);;
  f ← read_mat _frame;
  a ← read_mat _matrix;
  e ← new_array (Mat (dot f a));
  assign (with_params e).

(** The [matrix] setter (lines 102-110). *)
Definition set_matrix (matrix : mat3) : M unit :=
  r ← new_array (Mat matrix);
  assign (with_matrix r);;
  ty ← read_ttype;
  a ← read_mat _matrix;
  v ← call CodecError (projective_matrix_to_parameters ty a);
  p ← new_array (Vec v);
  assign (with_paramv p);;
  f ← read_mat _frame;
  a' ← read_mat _matrix;
  e ← new_array (Mat (dot f a'));
  assign (with_params e).

(** [__init__] (lines 24-34).  The base-class constructor of skimage
    binds [params] to the given matrix, or to the identity; the object
    exists for the caller only if the body returns. *)
Definition init (ty : ttype) (paramv : option (list float))
    (matrix : option mat3) (h : heap) : outcome tform * heap :=
  let body : M unit :=
    b ← new_array (Mat (default eye3 matrix));
    assign (with_params b);;
    f ← new_array (Mat eye3);
    assign (with_frame f);;
    assign (with_output_shape None);;
    match matrix with
    | Some m => set_matrix m
    | None =>
        match paramv with
        | Some v => set_paramv v
        | None =>
            v ← call CodecError (projective_matrix_to_parameters ty eye3);
            set_paramv v
        end
    end in
  match body (h, TForm ty None None None None None) with
  | (Return _, (h', self)) => (Return self, h')
  | (Raise e, (h', _)) => (Raise e, h')
  end.

(** [clone] (lines 36-55).  [copy.copy] makes a new instance whose
    attributes are bound to the very buffers of [self]; the assignment to
    [cln.paramv] then runs the setter on the new instance. *)
Definition clone (paramv : option (list float)) (s : state)
  : outcome tform * heap :=
  let cln := s.2 in
  let body : M unit :=
    match paramv with
    | None =>
        (* [self.paramv] is read while [cln] still has the bindings of
           [self], so reading it through [cln] gives the same array *)
        v ← read_vec _paramv; set_paramv v
    | Some v => set_paramv v
    end in
  match body (s.1, cln) with
  | (Return _, (h', c)) => (Return c, h')
  | (Raise e, (h', _)) => (Raise e, h')
  end.

(** [inset] (lines 146-193).  The temporaries [bounds], [inset] and
    [scale] never escape and are kept as values; the array bound to
    [_output_shape] is a buffer of its own in both branches. *)
Definition inset (shape : float * float) (frame : frame_spec) (crop : bool)
  : M unit :=
  let bounds := resolved_bounds shape frame in
  let scale := inset_scale shape bounds crop in
  o ← new_array (Vec (inset_output_shape shape bounds crop));
  assign (with_output_shape (Some o));;
  framemat ← call CodecError
    (parameters_to_projective_matrix affine (inset_params scale bounds));
  set_frame framemat.

(** The value [self.output_shape] evaluates to: None, or the content of
    the bound array. *)
Definition read_output_shape : M (option (list float)) := fun s =>
  match _output_shape s.2 with
  | None => (Return None, s)
  | Some r =>
      match s.1 !! r with
      | Some (Vec v) => (Return (Some v), s)
      | _ => (Raise AttributeError, s)
      end
  end.

(** [imtransform] (lines 119-144).  The result comes with the list of the
    calls made to the resampling primitive. *)
Definition imtransform (img : image) (order : nat) (cval : float) (s : state)
  : list warp_call * outcome image :=
  if negb (all_self_equal img) then ([], Raise NanGiven)
  else
    match read_mat params s with
    | (Return p, _) =>
        match read_output_shape s with
        | (Return os, _) =>
            let c := WarpCall img p order constant F64.nan true os in
            match warp c with
            | Some timage => ([c], Return (fill cval timage))
            | None => ([c], Raise WarpError)
            end
        | (Raise e, _) => ([], Raise e)
        end
    | (Raise e, _) => ([], Raise e)
    end.

(** The mutating calls of the public interface. *)
Inductive method : Type :=
  | SetParamVector (v : list float)
  | SetMatrix (m : mat3)
  | SetFrame (f : mat3)
  | Inset (shape : float * float) (frame : frame_spec) (crop : bool).

Definition invoke (c : method) : M unit :=
  match c with
  | SetParamVector v => set_paramv v
  | SetMatrix m => set_matrix m
  | SetFrame f => set_frame f
  | Inset shape frame crop => inset shape frame crop
  end.

(** A caller making the calls one after the other on the same instance,
    going on after a call that raised: the outcome of each call with the
    state it left. *)
Fixpoint run (cs : list method) (s : state) : list (outcome unit * state) :=
  match cs with
  | [] => []
  | c :: cs' => let r := invoke c s in r :: run cs' r.2
  end.

End ParamvMixin.

(** In-place assignment to an element of the array an attribute is bound
    to, as in [t.frame[i, j] = v] for 0 <= i, j < 3.  The getter returns the
    buffer itself, so the write lands in the store. *)
Definition mat_setitem (i j : nat) (v : float) (m : mat3) : mat3 :=
  match i, j with
  | 0%nat, 0%nat => Mat3 v (m01 m) (m02 m) (m10 m) (m11 m) (m12 m) (m20 m) (m21 m) (m22 m)
  | 0%nat, 1%nat => Mat3 (m00 m) v (m02 m) (m10 m) (m11 m) (m12 m) (m20 m) (m21 m) (m22 m)
  | 0%nat, 2%nat => Mat3 (m00 m) (m01 m) v (m10 m) (m11 m) (m12 m) (m20 m) (m21 m) (m22 m)
  | 1%nat, 0%nat => Mat3 (m00 m) (m01 m) (m02 m) v (m11 m) (m12 m) (m20 m) (m21 m) (m22 m)
  | 1%nat, 1%nat => Mat3 (m00 m) (m01 m) (m02 m) (m10 m) v (m12 m) (m20 m) (m21 m) (m22 m)
  | 1%nat, 2%nat => Mat3 (m00 m) (m01 m) (m02 m) (m10 m) (m11 m) v (m20 m) (m21 m) (m22 m)
  | 2%nat, 0%nat => Mat3 (m00 m) (m01 m) (m02 m) (m10 m) (m11 m) (m12 m) v (m21 m) (m22 m)
  | 2%nat, 1%nat => Mat3 (m00 m) (m01 m) (m02 m) (m10 m) (m11 m) (m12 m) (m20 m) v (m22 m)
  | 2%nat, 2%nat => Mat3 (m00 m) (m01 m) (m02 m) (m10 m) (m11 m) (m12 m) (m20 m) (m21 m) v
  | _, _ => m
  end.

Definition setitem (attr : tform -> option ref) (i j : nat) (v : float)
    (h : heap) (t : tform) : heap :=
  match attr t with
  | Some r =>
      match h !! r with
      | Some (Mat m) => <[r := Mat (mat_setitem i j v m)]> h
      | _ => h
      end
  | None => h
  end.

(** The array an attribute is bound to, if any. *)
Definition deref (h : heap) (attr : option ref) : option ndarray :=
  r ← attr; h !! r.

(** The effective matrix is the product of frame and matrix: the array
    bound to [params] holds [frame.dot(matrix)] of the arrays bound to
    [_frame] and [_matrix]. *)
Definition effective_ok (s : state) : Prop :=
  exists f a : mat3,
    deref s.1 (_frame s.2) = Some (Mat f) /\
    deref s.1 (_matrix s.2) = Some (Mat a) /\
    deref s.1 (params s.2) = Some (Mat (dot f a)).

(** Every array attribute is bound to a buffer of its kind; the output
    shape may also be None. *)
Definition well_formed (s : state) : Prop :=
  (exists v, deref s.1 (_paramv s.2) = Some (Vec v)) /\
  (exists a, deref s.1 (_matrix s.2) = Some (Mat a)) /\
  (exists f, deref s.1 (_frame s.2) = Some (Mat f)) /\
  (exists e, deref s.1 (params s.2) = Some (Mat e)) /\
  (_output_shape s.2 = None \/
   exists o, deref s.1 (_output_shape s.2) = Some (Vec o)).

(** The line the three setters end with,
    [self.params = self.frame.dot(self.matrix)]. *)
Definition recompute : M unit :=
  f ← read_mat _frame;
  a ← read_mat _matrix;
  e ← new_array (Mat (dot f a));
  assign (with_params e).
(* ===================================================================== *)
(** ** Instances of the collaborators, for closed examples *)
(* ===================================================================== *)

Module Toolbox.

(** Modelled from the spec: [rasl.toolbox] is not among the sources.  The
    codec maps a family tag and a parameter vector to a 3x3 matrix and
    back, and fails on a vector of the wrong length or on a matrix outside
    the family.  Section 4.2 fixes the affine layout as
    [[a, b, c, d, e, f]] for the rows [(a, b, c)] and [(d, e, f)] in
    (x = col, y = row) order; translate keeps the last column and
    projective the first eight entries.  The families scale, rotate and
    similarity are encoded with trigonometric functions, which the
    binary64 model here does not have: this instance raises for them. *)
Definition parameters_to_projective_matrix (ty : ttype) (xi : list float)
  : option mat3 :=
  match ty, xi with
  | translate, [tx; ty'] =>
      Some (Mat3 F64.one F64.zero tx F64.zero F64.one ty' F64.zero F64.zero F64.one)
  | affine, [a; b; c; d; e; f] =>
      Some (Mat3 a b c d e f F64.zero F64.zero F64.one)
  | projective, [a; b; c; d; e; f; g; h] =>
      Some (Mat3 a b c d e f g h F64.one)
  | _, _ => None
  end.

(** Modelled from the spec: the inverse direction of the codec above, with
    the membership test of the family written out. *)
Definition projective_matrix_to_parameters (ty : ttype) (m : mat3)
  : option (list float) :=
  let last_row_affine :=
    F64.eqb (m20 m) F64.zero && F64.eqb (m21 m) F64.zero
    && F64.eqb (m22 m) F64.one in
  match ty with
  | translate =>
      if F64.eqb (m00 m) F64.one && F64.eqb (m01 m) F64.zero
         && F64.eqb (m10 m) F64.zero && F64.eqb (m11 m) F64.one
         && last_row_affine
      then Some [m02 m; m12 m] else None
  | affine =>
      if last_row_affine
      then Some [m00 m; m01 m; m02 m; m10 m; m11 m; m12 m] else None
  | projective =>
      if F64.eqb (m22 m) F64.one
      then Some [m00 m; m01 m; m02 m; m10 m; m11 m; m12 m; m20 m; m21 m]
      else None
  | _ => None
  end.

End Toolbox.

Module Nearest.

(** The integer nearest to a finite float, halves away from zero. *)
Definition round (x : float) : option Z :=
  match x with
  | S754_zero _ => Some 0
  | S754_finite s m e =>
      let n := if 0 <=? e then Z.pos m * 2 ^ e
               else (2 * Z.pos m + 2 ^ (- e)) / (2 * 2 ^ (- e)) in
      Some (if s then - n else n)
  | _ => None
  end.

(** The source pixel at integer position (row, col), if inside. *)
Definition pixel (img : image) (row col : Z) : option float :=
  if (0 <=? row) && (0 <=? col)
  then r ← img !! Z.to_nat row; r !! Z.to_nat col
  else None.

(** The value of output pixel (r, c): the matrix takes the output
    position (x = c, y = r) to a source position, whose nearest pixel is
    read; positions outside the source give [cval]. *)
Definition sample (c : warp_call) (r k : nat) : float :=
  let x := F64.of_Z (Z.of_nat k) in
  let y := F64.of_Z (Z.of_nat r) in
  let m := w_matrix c in
  let xs := dot3 (m00 m) (m01 m) (m02 m) x y F64.one in
  let ys := dot3 (m10 m) (m11 m) (m12 m) x y F64.one in
  let ws := dot3 (m20 m) (m21 m) (m22 m) x y F64.one in
  match round (F64.div ys ws), round (F64.div xs ws) with
  | Some row, Some col => default (w_cval c) (pixel (w_image c) row col)
  | _, _ => w_cval c
  end.

(** Rows and columns of the output: the requested shape, or the shape of
    the input image when none is requested. *)
Definition out_shape (c : warp_call) : option (nat * nat) :=
  match w_output_shape c with
  | None => Some (length (w_image c), length (default [] (head (w_image c))))
  | Some [h; w] =>
      match round h, round w with
      | Some rows, Some cols => Some (Z.to_nat rows, Z.to_nat cols)
      | _, _ => None
      end
  | Some _ => None
  end.

(** A resampling primitive for closed examples: matrix-driven warp by
    nearest-neighbour lookup (order 0) with constant fill.  Other orders
    and modes are outside this instance and raise. *)
Definition warp (c : warp_call) : option image :=
  match w_order c, w_mode c with
  | 0%nat, constant =>
      '(rows, cols) ← out_shape c;
      Some (map (fun r => map (fun k => sample c r k) (seq 0 cols)) (seq 0 rows))
  | _, _ => None
  end.

End Nearest.

(* ===================================================================== *)
(** ** Sample data for closed examples *)
(* ===================================================================== *)

Module Sample.

(** The state [AffineTransform()] leaves on an empty store: every array
    attribute in a buffer of its own. *)
Definition t0 : tform :=
  TForm affine (Some 3%positive) (Some 4%positive) (Some 2%positive)
        (Some 5%positive) None.

Definition h0 : heap :=
  list_to_map
    [(1%positive, Mat eye3); (2%positive, Mat eye3);
     (3%positive, Vec [Fz 1; Fz 0; Fz 0; Fz 0; Fz 1; Fz 0]);
     (4%positive, Mat eye3); (5%positive, Mat eye3)].

(** A uniform scaling by 2 followed by a shift by (1, 1). *)
Definition zoom2 : mat3 :=
  Mat3 (Fz 2) (Fz 0) (Fz 1) (Fz 0) (Fz 2) (Fz 1) (Fz 0) (Fz 0) (Fz 1).

(** The instance [t0.clone()] evaluates to. *)
Definition c0 : tform :=
  TForm affine (Some 6%positive) (Some 7%positive) (Some 2%positive)
        (Some 8%positive) None.

(** The frame a zoom into a 1x1 image gets: both scales are 0/0. *)
Definition nan_frame : mat3 :=
  Mat3 F64.nan (Fz 0) (Fz 0) (Fz 0) F64.nan (Fz 0) (Fz 0) (Fz 0) (Fz 1).

(** The image used below: finite pixels and one infinite pixel. *)
Definition img_inf : image := [[Fz 1; F64.pinf]].

(** The scale of the zoom into the window ((5, 5), (94, 94)) of a 100x100
    image. *)
Definition scale_89_99 : float := F64.div (Fz 89) (Fz 99).

(** A finite 2x2 image. *)
Definition img4 : image := [[Fz 1; Fz 2]; [Fz 3; Fz 4]].

End Sample.

(* ===================================================================== *)
(** ** Notions for the properties of whole runs and of integer shapes *)
(* ===================================================================== *)

(** Structural equality of two floats, as a test. *)
Definition same_float (x y : float) : bool :=
  match x, y with
  | S754_zero a, S754_zero b => Bool.eqb a b
  | S754_infinity a, S754_infinity b => Bool.eqb a b
  | S754_nan, S754_nan => true
  | S754_finite a m e, S754_finite b m' e' =>
      Bool.eqb a b && Pos.eqb m m' && Z.eqb e e'
  | _, _ => false
  end.

(** A test on every pair drawn from two lists of integers. *)
Definition all_pairs (f : Z -> Z -> bool) (ns ws : list Z) : bool :=
  forallb (fun n => forallb (f n) ws) ns.

(** One axis of [inset] for an image of [n] pixels and a pixel width [w]
    with [crop]: the minimum point stays [w], the maximum point [-w - 1]
    becomes [n - w - 1], and the output has [n - 2w] pixels. *)
Definition width_axis_ok (n w : Z) : bool :=
  let lo := wrap_negative (Fz n) (Fz w) in
  let hi := wrap_negative (Fz n) (F64.sub (F64.opp (Fz w)) F64.one) in
  same_float lo (Fz w) && same_float hi (Fz (n - w - 1))
  && same_float (F64.add (F64.sub hi lo) F64.one) (Fz (n - 2 * w)).

(** One axis of [inset] for an image of [n] pixels and a cropped size [k]
    with [crop]: the window starts at [(n - k) / 2] rounded down and the
    output has [k] pixels. *)
Definition size_axis_ok (n k : Z) : bool :=
  let i := F64.div (F64.sub (Fz n) (Fz k)) F64.two in
  let lo := wrap_negative (Fz n) (F64.floor i) in
  let hi := wrap_negative (Fz n) (F64.floor (F64.sub (F64.opp i) F64.one)) in
  same_float lo (Fz ((n - k) / 2))
  && same_float hi (Fz ((n - k) / 2 + k - 1))
  && same_float (F64.add (F64.sub hi lo) F64.one) (Fz k).

(** One axis of [inset] for an image of [n] pixels and the window from
    pixel 0 to pixel [n - 1] without [crop]: the scale is 1. *)
Definition full_axis_ok (n : Z) : bool :=
  let lo := wrap_negative (Fz n) (Fz 0) in
  let hi := wrap_negative (Fz n) (Fz (n - 1)) in
  same_float lo (Fz 0) && same_float hi (Fz (n - 1))
  && same_float (F64.div (F64.sub hi lo) (F64.sub (Fz n) F64.one)) (Fz 1).

(** The parameter vector and the matrix correspond through the codec, in
    the direction of the setter that was used last. *)
Definition codec_consistent
    (p2m : ttype -> list float -> option mat3)
    (m2p : ttype -> mat3 -> option (list float)) (s : state) : Prop :=
  exists (v : list float) (a : mat3),
    deref s.1 (_paramv s.2) = Some (Vec v) /\
    deref s.1 (_matrix s.2) = Some (Mat a) /\
    (p2m (_ttype s.2) v = Some a \/ m2p (_ttype s.2) a = Some v).

(** A 4x4 image with the pixels 1 to 16, and the shift by (1, 1). *)
Definition img16 : image :=
  [[Fz 1; Fz 2; Fz 3; Fz 4]; [Fz 5; Fz 6; Fz 7; Fz 8];
   [Fz 9; Fz 10; Fz 11; Fz 12]; [Fz 13; Fz 14; Fz 15; Fz 16]].

Definition shift11 : mat3 :=
  Mat3 (Fz 1) (Fz 0) (Fz 1) (Fz 0) (Fz 1) (Fz 1) (Fz 0) (Fz 0) (Fz 1).

(** What one returning call has done to the parameter vector and to the
    matrix: the [paramv] setter leaves the given vector and the codec's
    matrix for it, the [matrix] setter the given matrix and the codec's
    parameters for it, the [frame] setter and [inset] the bindings and the
    contents of both as they were. *)
Definition paramv_matrix_step
    (p2m : ttype -> list float -> option mat3)
    (m2p : ttype -> mat3 -> option (list float))
    (c : method) (s s' : state) : Prop :=
  match c with
  | SetParamVector v =>
      exists a : mat3,
        p2m (_ttype s.2) v = Some a /\
        deref s'.1 (_paramv s'.2) = Some (Vec v) /\
        deref s'.1 (_matrix s'.2) = Some (Mat a)
  | SetMatrix m =>
      exists v : list float,
        m2p (_ttype s.2) m = Some v /\
        deref s'.1 (_matrix s'.2) = Some (Mat m) /\
        deref s'.1 (_paramv s'.2) = Some (Vec v)
  | SetFrame _ | Inset _ _ _ =>
      _paramv s'.2 = _paramv s.2 /\ _matrix s'.2 = _matrix s.2 /\
      (forall x, deref s.1 (_paramv s.2) = Some x ->
                 deref s'.1 (_paramv s'.2) = Some x) /\
      (forall x, deref s.1 (_matrix s.2) = Some x ->
                 deref s'.1 (_matrix s'.2) = Some x)
  end.

(** The step property and the correspondence through the codec, after each
    call of a sequence made on the same instance. *)
Fixpoint after_each_call
    (p2m : ttype -> list float -> option mat3)
    (m2p : ttype -> mat3 -> option (list float))
    (cs : list method) (s : state) : Prop :=
  match cs with
  | [] => True
  | c :: cs' =>
      let s' := (invoke p2m m2p c s).2 in
      paramv_matrix_step p2m m2p c s s' /\
      codec_consistent p2m m2p s' /\
      after_each_call p2m m2p cs' s'
  end.

(** Modelled from the spec: a codec whose matrix direction also fails on a
    parameter outside the domain, here one that is NaN or infinite; used
    where an example needs a rejected frame. *)
Definition strict_p2m (ty : ttype) (xi : list float) : option mat3 :=
  if forallb F64.isfinite xi
  then Toolbox.parameters_to_projective_matrix ty xi
  else None.

(* ===================================================================== *)
(** ** Facts about binary64 scalars *)
(* ===================================================================== *)

(** A float compares equal to itself exactly when it is not NaN. *)
Lemma eqb_self (x : float) : F64.eqb x x = negb (F64.is_nan x).
Proof.
  destruct x as [s | s | | s m e];
    [destruct s; reflexivity | destruct s; reflexivity | reflexivity |].
  unfold F64.eqb, SFeqb, SFcompare.
  destruct s; rewrite Z.compare_refl, Pos.compare_cont_refl; reflexivity.
Qed.

Lemma isfinite_not_nan (x : float) : F64.isfinite x = true -> F64.is_nan x = false.
Proof. destruct x; simpl; congruence. Qed.

Lemma nan_to_num_finite (x : float) : F64.isfinite x = true -> F64.nan_to_num x = x.
Proof. destruct x as [s | s | | s m e]; simpl; congruence. Qed.

(** Dividing by [1.0 - 1.0] never gives a finite number. *)
Lemma div_by_zero_not_finite (x : float) :
  F64.isfinite (F64.div x (F64.sub F64.one F64.one)) = false.
Proof. destruct x as [s | s | | s m e]; reflexivity. Qed.

Lemma wrap_negative_neg (dim v : float) :
  F64.ltb v F64.zero = true -> wrap_negative dim v = F64.add dim v.
Proof. unfold wrap_negative. intros ->. reflexivity. Qed.

Lemma wrap_negative_nonneg (dim v : float) :
  F64.ltb v F64.zero = false -> wrap_negative dim v = v.
Proof. unfold wrap_negative. intros ->. reflexivity. Qed.

(** [fill] works element by element. *)
Lemma fill_map (cval : float) (timage : image) :
  fill cval timage = map (map (fill_value cval)) timage.
Proof.
  unfold fill, fill_value.
  destruct (F64.eqb cval F64.zero); [reflexivity |].
  destruct (F64.isfinite cval); [reflexivity |].
  induction timage as [| row rows IH]; [reflexivity |].
  simpl. rewrite <- IH. f_equal.
  induction row as [| x xs IHx]; [reflexivity |].
  simpl. rewrite <- IHx. reflexivity.
Qed.

(** Finite pixels pass through the post-processing unchanged. *)
Lemma fill_value_finite (cval x : float) :
  F64.isfinite x = true -> fill_value cval x = x.
Proof.
  intros Hx. unfold fill_value. rewrite Hx, (nan_to_num_finite x Hx).
  destruct (F64.eqb cval F64.zero), (F64.isfinite cval); reflexivity.
Qed.

(** NaN pixels become 0.0 for [cval == 0], [cval] for another finite
    [cval], and stay NaN otherwise. *)
Lemma fill_value_nan (cval : float) :
  fill_value cval F64.nan =
    if F64.eqb cval F64.zero then F64.zero
    else if F64.isfinite cval then cval else F64.nan.
Proof. unfold fill_value. reflexivity. Qed.

(** An all-finite image is a fixed point of the post-processing. *)
Lemma fill_all_finite (cval : float) (timage : image) :
  forallb (forallb F64.isfinite) timage = true -> fill cval timage = timage.
Proof.
  intros H. rewrite fill_map.
  induction timage as [| row rows IH]; [reflexivity |].
  simpl in H. apply andb_prop in H as [Hrow Hrows].
  simpl. rewrite (IH Hrows). f_equal.
  clear IH Hrows. induction row as [| x xs IHx]; [reflexivity |].
  simpl in Hrow. apply andb_prop in Hrow as [Hx Hxs].
  simpl. rewrite (fill_value_finite cval x Hx), (IHx Hxs). reflexivity.
Qed.

(** [np.all(image == image)] fails exactly when some element is NaN. *)
Lemma all_self_equal_false (img : image) :
  all_self_equal img = false <->
  exists row x, In row img /\ In x row /\ F64.is_nan x = true.
Proof.
  unfold all_self_equal. split.
  - intros H.
    induction img as [| row rows IH]; [discriminate |].
    simpl in H. apply andb_false_iff in H as [H | H].
    + exists row.
      assert (exists x, In x row /\ F64.is_nan x = true) as (x & Hin & Hx).
      { clear IH. induction row as [| y ys IHy]; [discriminate |].
        simpl in H. apply andb_false_iff in H as [H | H].
        - exists y. split; [left; reflexivity |].
          rewrite eqb_self in H. destruct (F64.is_nan y); [reflexivity | discriminate].
        - destruct (IHy H) as (x & Hin & Hx). exists x. split; [right; exact Hin | exact Hx]. }
      exists x. repeat split; [left; reflexivity | exact Hin | exact Hx].
    + destruct (IH H) as (r & x & Hr & Hin & Hx).
      exists r, x. repeat split; [right; exact Hr | exact Hin | exact Hx].
  - intros (row & x & Hrow & Hin & Hx).
    destruct (forallb _ img) eqn:E; [| reflexivity].
    rewrite forallb_forall in E. specialize (E row Hrow).
    rewrite forallb_forall in E. specialize (E x Hin).
    rewrite eqb_self, Hx in E. discriminate.
Qed.

(* ===================================================================== *)
(** ** Facts about the store and about method bodies *)
(* ===================================================================== *)

(** A bound reference is never the next one to be allocated. *)
Lemma bound_not_fresh (h : heap) (r : ref) (a : ndarray) :
  h !! r = Some a -> r <> fresh (dom h).
Proof.
  intros Hr ->.
  pose proof (is_fresh (dom h)) as Hf.
  apply not_elem_of_dom in Hf. congruence.
Qed.

Lemma fresh_unbound (h : heap) : h !! fresh (dom h) = None.
Proof. apply not_elem_of_dom, is_fresh. Qed.

(** Allocation leaves every bound buffer as it was. *)
Lemma lookup_alloc_old (h : heap) (r : ref) (a b : ndarray) :
  h !! r = Some a -> <[fresh (dom h) := b]> h !! r = Some a.
Proof.
  intros Hr. rewrite lookup_insert_ne; [exact Hr |].
  intros E. exact (bound_not_fresh h r a Hr (eq_sym E)).
Qed.

Lemma deref_alloc_old (h : heap) (attr : option ref) (a b : ndarray) :
  deref h attr = Some a -> deref (<[fresh (dom h) := b]> h) attr = Some a.
Proof.
  destruct attr as [r |]; simpl; [apply lookup_alloc_old | discriminate].
Qed.

Lemma deref_alloc_new (h : heap) (b : ndarray) :
  deref (<[fresh (dom h) := b]> h) (Some (fresh (dom h))) = Some b.
Proof. simpl. apply lookup_insert_eq. Qed.

(** A bind that returns went through both of its parts. *)
Lemma bind_returns {A B} (c : M A) (f : A -> M B) (s s' : state) (b : B) :
  (c ≫= f) s = (Return b, s') ->
  exists a s1, c s = (Return a, s1) /\ f a s1 = (Return b, s').
Proof.
  unfold mbind, M_bind. destruct (c s) as [[a | e] s1]; intros H.
  - exists a, s1. split; [reflexivity | exact H].
  - discriminate.
Qed.

Lemma read_mat_returns (attr : tform -> option ref) (s s' : state) (m : mat3) :
  read_mat attr s = (Return m, s') ->
  s' = s /\ deref s.1 (attr s.2) = Some (Mat m).
Proof.
  unfold read_mat. destruct (attr s.2) as [r |]; simpl; [| discriminate].
  destruct (s.1 !! r) as [[v | m'] |]; intros H; inversion H; subst.
  split; reflexivity.
Qed.

Lemma read_mat_bound (attr : tform -> option ref) (s : state) (m : mat3) :
  deref s.1 (attr s.2) = Some (Mat m) -> read_mat attr s = (Return m, s).
Proof.
  unfold read_mat. destruct (attr s.2) as [r |]; simpl; [| discriminate].
  intros ->. reflexivity.
Qed.

Lemma read_vec_bound (attr : tform -> option ref) (s : state) (v : list float) :
  deref s.1 (attr s.2) = Some (Vec v) -> read_vec attr s = (Return v, s).
Proof.
  unfold read_vec. destruct (attr s.2) as [r |]; simpl; [| discriminate].
  intros ->. reflexivity.
Qed.


(** With frame and matrix bound, the line returns, allocating one buffer. *)
Lemma recompute_bound (h : heap) (t : tform) (f a : mat3) :
  deref h (_frame t) = Some (Mat f) ->
  deref h (_matrix t) = Some (Mat a) ->
  recompute (h, t) =
    (Return tt, (<[fresh (dom h) := Mat (dot f a)]> h,
                 with_params (fresh (dom h)) t)).
Proof.
  intros Hf Ha. unfold recompute, mbind, M_bind.
  rewrite (read_mat_bound _frame (h, t) f Hf).
  rewrite (read_mat_bound _matrix (h, t) a Ha).
  reflexivity.
Qed.

(** Lookups in a store grown by allocations. *)
Ltac store_lookup :=
  simpl;
  repeat first [ apply lookup_insert_eq | apply lookup_alloc_old
               | apply deref_alloc_old ].

Section Setters.

(** The two directions of the codec, whatever they are. *)
Variable p2m : ttype -> list float -> option mat3.
Variable m2p : ttype -> mat3 -> option (list float).

(** The setters, step by step on the store. *)
Lemma set_frame_eq (frame : mat3) (h : heap) (t : tform) :
  set_frame frame (h, t) =
    let r := fresh (dom h) in
    recompute (<[r := Mat frame]> h, with_frame r t).
Proof. reflexivity. Qed.

Lemma set_paramv_eq (v : list float) (h : heap) (t : tform) :
  set_paramv p2m v (h, t) =
    let p := fresh (dom h) in
    let h1 := <[p := Vec v]> h in
    match p2m (_ttype t) v with
    | Some m =>
        let r := fresh (dom h1) in
        recompute (<[r := Mat m]> h1, with_matrix r (with_paramv p t))
    | None => (Raise CodecError, (h1, with_paramv p t))
    end.
Proof.
  unfold set_paramv, recompute, mbind, M_bind. simpl.
  destruct (p2m (_ttype t) v); reflexivity.
Qed.

Lemma set_matrix_eq (m : mat3) (h : heap) (t : tform) :
  set_matrix m2p m (h, t) =
    let r := fresh (dom h) in
    let h1 := <[r := Mat m]> h in
    match m2p (_ttype t) m with
    | Some v =>
        let p := fresh (dom h1) in
        recompute (<[p := Vec v]> h1, with_paramv p (with_matrix r t))
    | None => (Raise CodecError, (h1, with_matrix r t))
    end.
Proof.
  unfold set_matrix, recompute, mbind, M_bind, read_mat. simpl.
  rewrite lookup_insert_eq. simpl.
  destruct (m2p (_ttype t) m); reflexivity.
Qed.

Lemma inset_eq (shape : float * float) (frame : frame_spec) (crop : bool)
    (h : heap) (t : tform) :
  inset p2m shape frame crop (h, t) =
    let bounds := resolved_bounds shape frame in
    let scale := inset_scale shape bounds crop in
    let o := fresh (dom h) in
    let h1 := <[o := Vec (inset_output_shape shape bounds crop)]> h in
    let t1 := with_output_shape (Some o) t in
    match p2m affine (inset_params scale bounds) with
    | Some framemat => set_frame framemat (h1, t1)
    | None => (Raise CodecError, (h1, t1))
    end.
Proof.
  unfold inset, mbind, M_bind. simpl.
  destruct (p2m affine _); reflexivity.
Qed.

Lemma alloc_subseteq (h : heap) (a : ndarray) : h ⊆ <[fresh (dom h) := a]> h.
Proof. apply insert_subseteq, fresh_unbound. Qed.

Lemma deref_subseteq (h h' : heap) (attr : option ref) (a : ndarray) :
  h ⊆ h' -> deref h attr = Some a -> deref h' attr = Some a.
Proof.
  intros Hsub. destruct attr as [r |]; simpl; [| discriminate].
  intros Hr. exact (lookup_weaken h h' r a Hr Hsub).
Qed.

(** C9.  For every instance with a matrix and every 3x3 array [f],
    [setFrame(f)] binds [_frame] to a buffer that did not exist before
    the call and that holds [f], rebinds [params] to the product of [f]
    and the matrix, and leaves the bindings and the contents of the
    parameter vector and of the matrix as they were. *)
Theorem set_frame_copies_and_recomputes (h : heap) (t : tform) (f a : mat3) :
  deref h (_matrix t) = Some (Mat a) ->
  exists (r : ref) (h' : heap) (t' : tform),
    set_frame f (h, t) = (Return tt, (h', t')) /\
    h !! r = None /\ _frame t' = Some r /\ h' !! r = Some (Mat f) /\
    deref h' (params t') = Some (Mat (dot f a)) /\
    _paramv t' = _paramv t /\ _matrix t' = _matrix t /\
    deref h' (_matrix t') = Some (Mat a) /\
    (forall v, deref h (_paramv t) = Some v -> deref h' (_paramv t') = Some v) /\
    h ⊆ h'.
Proof.
  intros Ha.
  set (r := fresh (dom h)).
  set (h1 := <[r := Mat f]> h).
  assert (Hsub1 : h ⊆ h1) by apply alloc_subseteq.
  assert (Hf1 : deref h1 (_frame (with_frame r t)) = Some (Mat f))
    by apply lookup_insert_eq.
  assert (Ha1 : deref h1 (_matrix (with_frame r t)) = Some (Mat a))
    by exact (deref_subseteq h h1 _ _ Hsub1 Ha).
  exists r, (<[fresh (dom h1) := Mat (dot f a)]> h1),
    (with_params (fresh (dom h1)) (with_frame r t)).
  assert (Hsub2 : h1 ⊆ <[fresh (dom h1) := Mat (dot f a)]> h1)
    by apply alloc_subseteq.
  split; [| split; [| split; [| split; [| split; [| split; [| split; [| split; [| split]]]]]]]].
  - rewrite set_frame_eq. exact (recompute_bound h1 _ f a Hf1 Ha1).
  - apply fresh_unbound.
  - reflexivity.
  - apply (lookup_weaken h1 _ r (Mat f)); [apply lookup_insert_eq | exact Hsub2].
  - apply lookup_insert_eq.
  - reflexivity.
  - reflexivity.
  - exact (deref_subseteq h1 _ _ _ Hsub2 Ha1).
  - intros v Hv. apply (deref_subseteq h1 _ _ _ Hsub2).
    exact (deref_subseteq h h1 _ _ Hsub1 Hv).
  - etrans; [exact Hsub1 | exact Hsub2].
Qed.


Lemma recompute_inv (h : heap) (t : tform) (s' : state) :
  recompute (h, t) = (Return tt, s') ->
  exists f a : mat3,
    deref h (_frame t) = Some (Mat f) /\
    deref h (_matrix t) = Some (Mat a) /\
    s' = (<[fresh (dom h) := Mat (dot f a)]> h, with_params (fresh (dom h)) t).
Proof.
  unfold recompute. intros H.
  apply bind_returns in H as (f & s1 & Hf & H).
  apply read_mat_returns in Hf as [-> Hf].
  apply bind_returns in H as (a & s2 & Ha & H).
  apply read_mat_returns in Ha as [-> Ha].
  exists f, a. split; [exact Hf | split; [exact Ha |]].
  unfold mbind, M_bind, new_array, assign in H. simpl in H.
  inversion H. reflexivity.
Qed.

(** What a returning [inset] has done, whatever the codec. *)
Lemma inset_inv (shape : float * float) (frame : frame_spec) (crop : bool)
    (h : heap) (t : tform) (s' : state) :
  inset p2m shape frame crop (h, t) = (Return tt, s') ->
  let bounds := resolved_bounds shape frame in
  exists framemat : mat3,
    p2m affine (inset_params (inset_scale shape bounds crop) bounds)
      = Some framemat /\
    deref s'.1 (_frame s'.2) = Some (Mat framemat) /\
    deref s'.1 (_output_shape s'.2)
      = Some (Vec (inset_output_shape shape bounds crop)).
Proof.
  intros H bounds. rewrite inset_eq in H. cbv zeta in H. fold bounds in H.
  destruct (p2m affine _) as [framemat |] eqn:E; [| discriminate].
  exists framemat. split; [reflexivity |].
  rewrite set_frame_eq in H. cbv zeta in H.
  apply recompute_inv in H as (f & a & Hf & Ha & ->).
  split; store_lookup.
Qed.

(** C6.  Whenever [inset] returns, each component [v] of the bounds it
    worked with is the raw component when that is not below zero and
    [shape + v] of its axis when it is, and the frame installed is what
    the codec gives for the family affine and the six parameters
    [scale[1], 0, bounds[0,1], 0, scale[0], bounds[0,0]]: the column
    scale and origin first, the row scale and origin second. *)
Theorem inset_wraps_negative_and_swaps_axes (shape : float * float)
    (frame : frame_spec) (crop : bool) (h : heap) (t : tform) (s' : state) :
  inset p2m shape frame crop (h, t) = (Return tt, s') ->
  let raw := raw_bounds shape frame in
  let from_end (dim v : float) :=
    if F64.ltb v F64.zero then F64.add dim v else v in
  let b00 := from_end shape.1 raw.1.1 in
  let b01 := from_end shape.2 raw.1.2 in
  let b10 := from_end shape.1 raw.2.1 in
  let b11 := from_end shape.2 raw.2.2 in
  let scale :=
    if crop then (F64.one, F64.one)
    else (F64.div (F64.sub b10 b00) (F64.sub shape.1 F64.one),
          F64.div (F64.sub b11 b01) (F64.sub shape.2 F64.one)) in
  resolved_bounds shape frame = ((b00, b01), (b10, b11)) /\
  exists framemat : mat3,
    p2m affine [scale.2; F64.zero; b01; F64.zero; scale.1; b00]
      = Some framemat /\
    deref s'.1 (_frame s'.2) = Some (Mat framemat).
Proof.
  intros H raw from_end b00 b01 b10 b11 scale.
  split; [reflexivity |].
  apply inset_inv in H as (framemat & Hc & Hf & _).
  exists framemat. split; [| exact Hf].
  rewrite <- Hc. destruct crop; reflexivity.
Qed.

(** C7.  For shape (100, 100), pixel width 5 and crop, the bounds are
    ((5, 5), (94, 94)); a returning [inset] has bound the output shape to
    (90, 90) and the frame to the codec's matrix for the affine parameters
    [1, 0, 5, 0, 1, 5], that is scale (1, 1) and origin (5, 5). *)
Theorem inset_100_width_5_crop (h : heap) (t : tform) (s' : state) :
  inset p2m (F64.of_Z 100, F64.of_Z 100) (Width (F64.of_Z 5)) true (h, t)
    = (Return tt, s') ->
  resolved_bounds (F64.of_Z 100, F64.of_Z 100) (Width (F64.of_Z 5))
    = ((F64.of_Z 5, F64.of_Z 5), (F64.of_Z 94, F64.of_Z 94)) /\
  deref s'.1 (_output_shape s'.2) = Some (Vec [F64.of_Z 90; F64.of_Z 90]) /\
  exists framemat : mat3,
    p2m affine [F64.of_Z 1; F64.of_Z 0; F64.of_Z 5;
                F64.of_Z 0; F64.of_Z 1; F64.of_Z 5] = Some framemat /\
    deref s'.1 (_frame s'.2) = Some (Mat framemat).
Proof.
  intros H.
  assert (Hb : resolved_bounds (F64.of_Z 100, F64.of_Z 100) (Width (F64.of_Z 5))
               = ((F64.of_Z 5, F64.of_Z 5), (F64.of_Z 94, F64.of_Z 94)))
    by (vm_compute; reflexivity).
  apply inset_inv in H as (framemat & Hc & Hf & Ho).
  rewrite Hb in Hc, Ho.
  split; [exact Hb |]. split.
  - rewrite Ho. vm_compute. reflexivity.
  - exists framemat. split; [| exact Hf].
    rewrite <- Hc. vm_compute. reflexivity.
Qed.

(** C3, as the code has it.  With [crop] false, [inset] has no check of
    its own: for every shape and boundary whose parameter list the codec
    accepts it returns, with the output shape bound to [shape] and the
    frame to the codec's matrix for the scale
    [(bounds[1] - bounds[0]) / (shape - 1)], computed in binary64.  An axis
    of shape 1 therefore gives a scale that is not finite, and no
    exception. *)
Theorem inset_zoom_has_no_degenerate_check (shape : float * float)
    (frame : frame_spec) (h : heap) (t : tform) (a framemat : mat3) :
  let b := resolved_bounds shape frame in
  let scale :=
    (F64.div (F64.sub b.2.1 b.1.1) (F64.sub shape.1 F64.one),
     F64.div (F64.sub b.2.2 b.1.2) (F64.sub shape.2 F64.one)) in
  deref h (_matrix t) = Some (Mat a) ->
  p2m affine [scale.2; F64.zero; b.1.2; F64.zero; scale.1; b.1.1]
    = Some framemat ->
  (exists s' : state,
     inset p2m shape frame false (h, t) = (Return tt, s') /\
     deref s'.1 (_output_shape s'.2) = Some (Vec [shape.1; shape.2]) /\
     deref s'.1 (_frame s'.2) = Some (Mat framemat)) /\
  (shape.1 = F64.one -> F64.isfinite scale.1 = false) /\
  (shape.2 = F64.one -> F64.isfinite scale.2 = false).
Proof.
  intros b scale Ha Hc. split; [| split].
  - rewrite inset_eq. cbv zeta. fold b.
    change (inset_params (inset_scale shape b false) b)
      with [scale.2; F64.zero; b.1.2; F64.zero; scale.1; b.1.1].
    rewrite Hc. rewrite set_frame_eq. cbv zeta.
    erewrite recompute_bound; [| store_lookup | store_lookup; exact Ha].
    eexists. split; [reflexivity |]. split; store_lookup.
  - intros E. unfold scale. simpl. rewrite E. apply div_by_zero_not_finite.
  - intros E. unfold scale. simpl. rewrite E. apply div_by_zero_not_finite.
Qed.

(** What a returning [clone()] shares with its source and what it does
    not: the parameter vector, the matrix and the effective matrix of the
    clone are buffers that did not exist before, while [_frame] and
    [_output_shape] are bound to the buffers of the source. *)
Lemma clone_inv (h h' : heap) (t c : tform) :
  clone p2m None (h, t) = (Return c, h') ->
  _frame c = _frame t /\ _output_shape c = _output_shape t /\
  (exists v, deref h (_paramv t) = Some (Vec v)
             /\ deref h' (_paramv c) = Some (Vec v)) /\
  deref h (_paramv c) = None /\ deref h (_matrix c) = None /\
  deref h (params c) = None /\
  h ⊆ h'.
Proof.
  unfold clone. simpl. intros H.
  destruct ((read_vec _paramv ≫= _) (h, t)) as [[u | e] [h1 c1]] eqn:E;
    [| discriminate].
  inversion H; subst; clear H.
  apply bind_returns in E as (v & s1 & Hv & E).
  unfold read_vec in Hv. simpl in Hv.
  destruct (_paramv t) as [r |] eqn:Er; [| discriminate].
  destruct (h !! r) as [[v' | m'] |] eqn:Ehr; inversion Hv; subst; clear Hv.
  rewrite set_paramv_eq in E. cbv zeta in E.
  destruct (p2m (_ttype t) v) as [m |]; [| discriminate].
  destruct u. apply recompute_inv in E as (f & a & Hf & Ha & E).
  inversion E; subst; clear E. simpl.
  assert (Hsub : h ⊆ <[fresh (dom h) := Vec v]> h) by apply alloc_subseteq.
  assert (Hsub2 : <[fresh (dom h) := Vec v]> h
                  ⊆ <[fresh (dom (<[fresh (dom h) := Vec v]> h)) := Mat m]>
                      (<[fresh (dom h) := Vec v]> h)) by apply alloc_subseteq.
  split; [reflexivity | split; [reflexivity |]].
  split; [| split; [| split; [| split]]].
  - exists v. split; [exact Ehr | store_lookup].
  - apply fresh_unbound.
  - destruct (h !! fresh (dom (<[fresh (dom h) := Vec v]> h))) as [x |] eqn:Ex;
      [| reflexivity].
    pose proof (lookup_weaken _ _ _ _ Ex Hsub) as Hx.
    rewrite fresh_unbound in Hx. discriminate.
  - match goal with |- ?hh !! ?k = None =>
      destruct (hh !! k) as [x |] eqn:Ex; [| reflexivity] end.
    pose proof (lookup_weaken _ _ _ _ Ex Hsub) as Hx.
    pose proof (lookup_weaken _ _ _ _ Hx Hsub2) as Hx2.
    rewrite fresh_unbound in Hx2. discriminate.
  - etrans; [exact Hsub |]. etrans; [exact Hsub2 |]. apply alloc_subseteq.
Qed.

(** An in-place write to the frame of the source after [clone()] is read
    back through the clone. *)
Lemma clone_sees_frame_writes (h h' : heap) (t c : tform) (i j : nat)
    (x : float) :
  clone p2m None (h, t) = (Return c, h') ->
  deref (setitem _frame i j x h' t) (_frame c)
    = deref (setitem _frame i j x h' t) (_frame t).
Proof.
  intros H. apply clone_inv in H as (-> & _). reflexivity.
Qed.

(** Goals of [well_formed] on a store grown by allocations. *)
Ltac wf_step :=
  first [ eexists; store_lookup; eassumption
        | eexists; store_lookup; fail
        | store_lookup; eassumption ].

(** Every call of the interface, returning or raising, leaves the
    attributes bound to buffers of their kinds. *)
Lemma invoke_well_formed (c : method) (s : state) :
  well_formed s -> well_formed (invoke p2m m2p c s).2.
Proof.
  destruct s as [h t].
  intros ((v & Hv) & (a & Ha) & (f & Hf) & (e & He) & Ho). simpl in *.
  assert (Ho' : forall (h' : heap), h ⊆ h' ->
            _output_shape t = None \/
            exists o, deref h' (_output_shape t) = Some (Vec o)).
  { intros h' Hsub. destruct Ho as [Ho | (o & Ho)]; [left; exact Ho |].
    right. exists o. exact (deref_subseteq h h' _ _ Hsub Ho). }
  destruct c as [v' | m | f' | shape frame crop]; simpl.
  - rewrite set_paramv_eq. cbv zeta.
    destruct (p2m (_ttype t) v') as [m |].
    + erewrite recompute_bound; [| store_lookup; eassumption | store_lookup].
      unfold well_formed. simpl.
      split; [wf_step |]. split; [wf_step |]. split; [wf_step |].
      split; [wf_step |].
      apply Ho'. etrans; [apply alloc_subseteq |].
      etrans; apply alloc_subseteq.
    + unfold well_formed. simpl.
      split; [wf_step |]. split; [wf_step |]. split; [wf_step |].
      split; [wf_step |].
      apply Ho', alloc_subseteq.
  - rewrite set_matrix_eq. cbv zeta.
    destruct (m2p (_ttype t) m) as [v' |].
    + erewrite recompute_bound; [| store_lookup; eassumption | store_lookup].
      unfold well_formed. simpl.
      split; [wf_step |]. split; [wf_step |]. split; [wf_step |].
      split; [wf_step |].
      apply Ho'. etrans; [apply alloc_subseteq |].
      etrans; apply alloc_subseteq.
    + unfold well_formed. simpl.
      split; [wf_step |]. split; [wf_step |]. split; [wf_step |].
      split; [wf_step |].
      apply Ho', alloc_subseteq.
  - rewrite set_frame_eq. cbv zeta.
    erewrite recompute_bound; [| store_lookup | store_lookup; eassumption].
    unfold well_formed. simpl.
    split; [wf_step |]. split; [wf_step |]. split; [wf_step |].
    split; [wf_step |].
    apply Ho'. etrans; apply alloc_subseteq.
  - rewrite inset_eq. cbv zeta.
    destruct (p2m affine _) as [fm |].
    + rewrite set_frame_eq. cbv zeta.
      erewrite recompute_bound; [| store_lookup | store_lookup; eassumption].
      unfold well_formed. simpl.
      split; [wf_step |]. split; [wf_step |]. split; [wf_step |].
      split; [wf_step |].
      right. wf_step.
    + unfold well_formed. simpl.
      split; [wf_step |]. split; [wf_step |]. split; [wf_step |].
      split; [wf_step |].
      right. wf_step.
Qed.

(** The constructor returns well-formed instances whose effective matrix
    is the product of frame and matrix. *)
Lemma init_well_formed (ty : ttype) (pv : option (list float))
    (m : option mat3) (h h' : heap) (t : tform) :
  init p2m m2p ty pv m h = (Return t, h') ->
  well_formed (h', t) /\ effective_ok (h', t).
Proof.
  unfold init, mbind, M_bind, new_array, assign. simpl.
  destruct m as [m |]; [| destruct pv as [v |]].
  - rewrite set_matrix_eq. cbv zeta. simpl.
    destruct (m2p ty m) as [v |]; [| discriminate].
    erewrite recompute_bound; [| store_lookup | store_lookup].
    intros H. inversion H; subst; clear H.
    split; [| eexists _, _; repeat split; store_lookup].
    unfold well_formed. simpl.
    split; [wf_step |]. split; [wf_step |]. split; [wf_step |].
    split; [wf_step |]. left. reflexivity.
  - rewrite set_paramv_eq. cbv zeta. simpl.
    destruct (p2m ty v) as [a |]; [| discriminate].
    erewrite recompute_bound; [| store_lookup | store_lookup].
    intros H. inversion H; subst; clear H.
    split; [| eexists _, _; repeat split; store_lookup].
    unfold well_formed. simpl.
    split; [wf_step |]. split; [wf_step |]. split; [wf_step |].
    split; [wf_step |]. left. reflexivity.
  - unfold call. destruct (m2p ty eye3) as [v |]; [| discriminate]. simpl.
    rewrite set_paramv_eq. cbv zeta. simpl.
    destruct (p2m ty v) as [a |]; [| discriminate].
    erewrite recompute_bound; [| store_lookup | store_lookup].
    intros H. inversion H; subst; clear H.
    split; [| eexists _, _; repeat split; store_lookup].
    unfold well_formed. simpl.
    split; [wf_step |]. split; [wf_step |]. split; [wf_step |].
    split; [wf_step |]. left. reflexivity.
Qed.

(** A matrix setter whose codec call raises has already rebound [_matrix]:
    [params] still holds what it held before the call. *)
Lemma set_matrix_raises (m : mat3) (h : heap) (t : tform) :
  m2p (_ttype t) m = None ->
  exists s' : state,
    set_matrix m2p m (h, t) = (Raise CodecError, s') /\
    deref s'.1 (_matrix s'.2) = Some (Mat m) /\
    params s'.2 = params t /\ _frame s'.2 = _frame t /\ h ⊆ s'.1.
Proof.
  intros E. rewrite set_matrix_eq. cbv zeta. rewrite E.
  eexists. split; [reflexivity |]. simpl.
  split; [apply lookup_insert_eq |].
  split; [reflexivity |]. split; [reflexivity |]. apply alloc_subseteq.
Qed.







End Setters.

Section Warp.

(** The resampling primitive, whatever it is. *)
Variable warp : warp_call -> option image.

(** C4.  [imtransform] raises its NaN error exactly when some element of
    the image is NaN, whatever the state of the instance, and in that case
    no call of the resampling primitive has been made. *)
Theorem imtransform_raises_iff_nan (img : image) (order : nat) (cval : float)
    (s : state) :
  ((imtransform warp img order cval s).2 = Raise NanGiven <->
   exists row x, In row img /\ In x row /\ F64.is_nan x = true) /\
  ((exists row x, In row img /\ In x row /\ F64.is_nan x = true) ->
   imtransform warp img order cval s = ([], Raise NanGiven)).
Proof.
  assert (Hraise : all_self_equal img = false ->
                   imtransform warp img order cval s = ([], Raise NanGiven)).
  { intros E. unfold imtransform. rewrite E. reflexivity. }
  split; [split |].
  - intros H. apply all_self_equal_false.
    destruct (all_self_equal img) eqn:E; [| reflexivity].
    unfold imtransform, read_mat, read_output_shape in H.
    rewrite E in H. simpl in H.
    destruct (params s.2) as [r |]; [| discriminate].
    destruct (s.1 !! r) as [[v | p] |]; try discriminate.
    destruct (_output_shape s.2) as [o |].
    + destruct (s.1 !! o) as [[v | m] |]; try discriminate.
      destruct (warp _); discriminate.
    + destruct (warp _); discriminate.
  - intros H. apply all_self_equal_false in H.
    rewrite (Hraise H). reflexivity.
  - intros H. apply all_self_equal_false in H. exact (Hraise H).
Qed.

(** C8.  On an image without NaN, [imtransform] makes one call of the
    resampling primitive: with the image, the array bound to [params]
    itself, the given order, constant mode with NaN as the fill value,
    preserve-range on, and as output shape the content of the array bound
    to [_output_shape] when one is set, and None when it is unset (for which
    the primitive keeps the shape of the image); its result is the
    post-processed result of that call.  So if the primitive returns an
    all-finite image unchanged for the identity matrix and no output
    shape, so does [imtransform]. *)
Theorem imtransform_calls_warp (img : image) (order : nat) (cval : float)
    (h : heap) (t : tform) (p : mat3) (os : option (list float)) :
  all_self_equal img = true ->
  deref h (params t) = Some (Mat p) ->
  match _output_shape t with
  | None => os = None
  | Some r => exists v : list float, h !! r = Some (Vec v) /\ os = Some v
  end ->
  let c := WarpCall img p order constant F64.nan true os in
  (_output_shape t = None -> w_output_shape c = None) /\
  (forall v : list float,
     deref h (_output_shape t) = Some (Vec v) -> w_output_shape c = Some v) /\
  (imtransform warp img order cval (h, t)).1 = [c] /\
  (imtransform warp img order cval (h, t)).2 =
    match warp c with
    | Some timage => Return (fill cval timage)
    | None => Raise WarpError
    end /\
  (p = eye3 -> os = None -> forallb (forallb F64.isfinite) img = true ->
   warp c = Some img ->
   (imtransform warp img order cval (h, t)).2 = Return img).
Proof.
  intros Hnan Hp Hos c.
  assert (Hread : read_output_shape (h, t) = (Return os, (h, t))).
  { unfold read_output_shape. simpl.
    destruct (_output_shape t) as [r |].
    - destruct Hos as (v & Hv & ->). rewrite Hv. reflexivity.
    - subst os. reflexivity. }
  assert (E : imtransform warp img order cval (h, t) =
              match warp c with
              | Some timage => ([c], Return (fill cval timage))
              | None => ([c], Raise WarpError)
              end).
  { unfold imtransform. rewrite Hnan. simpl.
    rewrite (read_mat_bound params (h, t) p Hp), Hread. reflexivity. }
  split; [| split; [| split; [| split]]].
  - intros Hn. rewrite Hn in Hos. subst os. reflexivity.
  - intros v Hv. simpl.
    destruct (_output_shape t) as [r |]; simpl in Hv; [| discriminate].
    destruct Hos as (v' & Hv' & ->). rewrite Hv' in Hv.
    inversion Hv. reflexivity.
  - rewrite E. destruct (warp c); reflexivity.
  - rewrite E. destruct (warp c); reflexivity.
  - intros _ _ Hfin Hw. rewrite E, Hw. simpl.
    rewrite (fill_all_finite cval img Hfin). reflexivity.
Qed.

End Warp.

(* ===================================================================== *)
(** ** Closed examples on the codec and the primitive instances *)
(* ===================================================================== *)

Module Examples.

Import Sample.

Abbreviation p2m := Toolbox.parameters_to_projective_matrix.
Abbreviation m2p := Toolbox.projective_matrix_to_parameters.

Example of_Z_100 : Fz 100 = S754_finite false 7036874417766400 (-46).
Proof. vm_compute. reflexivity. Qed.

Example init_affine : init p2m m2p affine None None ∅ = (Return t0, h0).
Proof. vm_compute. reflexivity. Qed.

(** A run with a rejected call in the middle: the matrix setter is given
    a matrix outside the affine family. *)
Example run_outcomes :
  map fst (run p2m m2p
             [SetFrame zoom2;
              SetMatrix (Mat3 (Fz 1) (Fz 0) (Fz 0) (Fz 0) (Fz 1) (Fz 0)
                              (Fz 0) (Fz 0) (Fz 2));
              SetParamVector [Fz 1; Fz 0; Fz 3; Fz 0; Fz 1; Fz 4];
              Inset (Fz 100, Fz 100) (Size (Fz 50) (Fz 50)) true]
             (h0, t0))
  = [Return tt; Raise CodecError; Return tt; Return tt].
Proof. vm_compute. reflexivity. Qed.

(** The centred 50x50 window of a 100x100 image. *)
Example centred_window :
  resolved_bounds (Fz 100, Fz 100) (Size (Fz 50) (Fz 50))
    = ((Fz 25, Fz 25), (Fz 74, Fz 74))
  /\ inset_output_shape (Fz 100, Fz 100) ((Fz 25, Fz 25), (Fz 74, Fz 74)) true
    = [Fz 50; Fz 50].
Proof. split; vm_compute; reflexivity. Qed.

(** The identity window of a 10x10 image, zoomed: scale (1, 1). *)
Example identity_window :
  inset_scale (Fz 10, Fz 10)
    (resolved_bounds (Fz 10, Fz 10) (Box (Fz 0) (Fz 0) (Fz 9) (Fz 9))) false
    = (Fz 1, Fz 1).
Proof. vm_compute. reflexivity. Qed.

(** C2, on the code.  [t0.clone()] returns an instance with an equal
    parameter vector in a buffer of its own, but [copy.copy] has left its
    [_frame] bound to the buffer of the source: after the in-place write
    [t0.frame[0, 2] = 7.0] the frame read through the clone has changed
    from the identity to the written matrix. *)
Theorem clone_shares_frame_buffer :
  let h1 := (clone p2m None (h0, t0)).2 in
  (clone p2m None (h0, t0)).1 = Return c0 /\
  deref h1 (_paramv c0) = deref h1 (_paramv t0) /\
  _paramv c0 <> _paramv t0 /\
  _frame c0 = _frame t0 /\
  deref h1 (_frame c0) = Some (Mat eye3) /\
  deref (setitem _frame 0 2 (Fz 7) h1 t0) (_frame c0)
    = Some (Mat (Mat3 (Fz 1) (Fz 0) (Fz 7) (Fz 0) (Fz 1) (Fz 0)
                      (Fz 0) (Fz 0) (Fz 1))).
Proof.
  cbv zeta. repeat split; try (vm_compute; reflexivity).
  intros E. discriminate E.
Qed.

(** After [inset], the output shape is an array too, and the clone is
    bound to the same one. *)
Example clone_shares_output_shape :
  let s1 := (inset p2m (Fz 100, Fz 100) (Width (Fz 5)) true (h0, t0)).2 in
  exists (c : tform) (h2 : heap),
    clone p2m None s1 = (Return c, h2) /\
    _output_shape c = _output_shape s1.2 /\
    is_Some (_output_shape c).
Proof.
  cbv zeta. eexists _, _. split; [vm_compute; reflexivity |].
  split; [vm_compute; reflexivity | vm_compute; eexists; reflexivity].
Qed.

(** C3 fails on the code: with [crop] false, [inset] returns without any
    exception for an image of shape (1, 1), where both scales are 0/0 and
    the frame gets NaN entries, for a window collapsed to the single
    point (3, 3), and for a window whose maximum point (2, 2) lies before
    its minimum point (5, 5). *)
Lemma inset_zoom_degenerate_returns :
  (exists s' : state,
     inset p2m (Fz 1, Fz 1) (Width (Fz 0)) false (h0, t0) = (Return tt, s') /\
     deref s'.1 (_frame s'.2) = Some (Mat nan_frame)) /\
  (inset p2m (Fz 10, Fz 10) (Box (Fz 3) (Fz 3) (Fz 3) (Fz 3)) false
     (h0, t0)).1 = Return tt /\
  (inset p2m (Fz 10, Fz 10) (Box (Fz 5) (Fz 5) (Fz 2) (Fz 2)) false
     (h0, t0)).1 = Return tt.
Proof.
  split; [| split; vm_compute; reflexivity].
  eexists. split; vm_compute; reflexivity.
Qed.

Lemma inset_zoom_witness :
  deref h0 (_matrix t0) = Some (Mat eye3) /\
  p2m affine [F64.nan; Fz 0; Fz 0; Fz 0; F64.nan; Fz 0] = Some nan_frame /\
  exists s' : state,
    inset p2m (Fz 1, Fz 1) (Width (Fz 0)) false (h0, t0) = (Return tt, s') /\
    deref s'.1 (_output_shape s'.2) = Some (Vec [Fz 1; Fz 1]) /\
    deref s'.1 (_frame s'.2) = Some (Mat nan_frame).
Proof.
  split; [vm_compute; reflexivity |].
  split; [vm_compute; reflexivity |].
  refine (proj1 (inset_zoom_has_no_degenerate_check p2m (Fz 1, Fz 1)
                   (Width (Fz 0)) h0 t0 eye3 nan_frame _ _));
    vm_compute; reflexivity.
Defined.

(** C5, on the code.  The image has no NaN and the warped result
    (nearest-neighbour, identity) is the image itself, with its +inf pixel
    and no NaN.  The post-processing still rewrites that pixel: to the
    largest finite float for [cval == 0], and to [cval] for
    [cval == 7]. *)
Theorem imtransform_rewrites_infinite_pixels :
  all_self_equal img_inf = true /\
  Nearest.warp (WarpCall img_inf eye3 0 constant F64.nan true None)
    = Some img_inf /\
  (imtransform Nearest.warp img_inf 0 (Fz 0) (h0, t0)).2
    = Return [[Fz 1; F64.max_float]] /\
  (imtransform Nearest.warp img_inf 0 (Fz 7) (h0, t0)).2
    = Return [[Fz 1; Fz 7]].
Proof. repeat split; vm_compute; reflexivity. Qed.

Lemma inset_wraps_witness :
  let s' := (inset p2m (Fz 100, Fz 100) (Width (Fz 5)) false (h0, t0)).2 in
  inset p2m (Fz 100, Fz 100) (Width (Fz 5)) false (h0, t0) = (Return tt, s') /\
  raw_bounds (Fz 100, Fz 100) (Width (Fz 5))
    = ((Fz 5, Fz 5), (Fz (-6), Fz (-6))) /\
  resolved_bounds (Fz 100, Fz 100) (Width (Fz 5))
    = ((Fz 5, Fz 5), (Fz 94, Fz 94)) /\
  exists framemat : mat3,
    p2m affine [scale_89_99; Fz 0; Fz 5; Fz 0; scale_89_99; Fz 5]
      = Some framemat /\
    deref s'.1 (_frame s'.2) = Some (Mat framemat).
Proof.
  cbv zeta.
  assert (H : inset p2m (Fz 100, Fz 100) (Width (Fz 5)) false (h0, t0)
              = (Return tt,
                 (inset p2m (Fz 100, Fz 100) (Width (Fz 5)) false (h0, t0)).2))
    by (vm_compute; reflexivity).
  split; [exact H |]. split; [vm_compute; reflexivity |].
  exact (inset_wraps_negative_and_swaps_axes p2m _ _ _ _ _ _ H).
Defined.

Lemma inset_100_width_5_crop_witness :
  let s' := (inset p2m (Fz 100, Fz 100) (Width (Fz 5)) true (h0, t0)).2 in
  inset p2m (Fz 100, Fz 100) (Width (Fz 5)) true (h0, t0) = (Return tt, s') /\
  deref s'.1 (_output_shape s'.2) = Some (Vec [Fz 90; Fz 90]) /\
  deref s'.1 (_frame s'.2)
    = Some (Mat (Mat3 (Fz 1) (Fz 0) (Fz 5) (Fz 0) (Fz 1) (Fz 5)
                      (Fz 0) (Fz 0) (Fz 1))).
Proof.
  cbv zeta.
  assert (H : inset p2m (Fz 100, Fz 100) (Width (Fz 5)) true (h0, t0)
              = (Return tt,
                 (inset p2m (Fz 100, Fz 100) (Width (Fz 5)) true (h0, t0)).2))
    by (vm_compute; reflexivity).
  split; [exact H |].
  destruct (inset_100_width_5_crop p2m _ _ _ H) as (_ & Ho & fm & Hc & Hf).
  split; [exact Ho |].
  rewrite Hf. f_equal. f_equal.
  vm_compute in Hc. inversion Hc. reflexivity.
Defined.

Lemma imtransform_calls_warp_witness :
  (all_self_equal img4 = true /\
   deref h0 (params t0) = Some (Mat eye3) /\
   (imtransform Nearest.warp img4 0 (Fz 0) (h0, t0)).1
     = [WarpCall img4 eye3 0 constant F64.nan true None] /\
   (imtransform Nearest.warp img4 0 (Fz 0) (h0, t0)).2 = Return img4) /\
  (let s1 := (inset p2m (Fz 4, Fz 4) (Width (Fz 1)) true (h0, t0)).2 in
   all_self_equal img16 = true /\
   deref s1.1 (params s1.2) = Some (Mat shift11) /\
   deref s1.1 (_output_shape s1.2) = Some (Vec [Fz 2; Fz 2]) /\
   (imtransform Nearest.warp img16 0 (Fz 0) s1).1
     = [WarpCall img16 shift11 0 constant F64.nan true (Some [Fz 2; Fz 2])] /\
   (imtransform Nearest.warp img16 0 (Fz 0) s1).2
     = Return [[Fz 6; Fz 7]; [Fz 10; Fz 11]]).
Proof.
  split.
  - split; [vm_compute; reflexivity |].
    split; [vm_compute; reflexivity |].
    assert (H := imtransform_calls_warp Nearest.warp img4 0%nat (Fz 0) h0 t0
                   eye3 None).
    cbv zeta in H.
    destruct H as (_ & _ & Hlog & _ & Hid);
      [vm_compute; reflexivity | vm_compute; reflexivity | reflexivity |].
    split; [exact Hlog |].
    apply Hid; [reflexivity | reflexivity | |]; vm_compute; reflexivity.
  - cbv zeta.
    split; [vm_compute; reflexivity |].
    split; [vm_compute; reflexivity |].
    split; [vm_compute; reflexivity |].
    assert (H := imtransform_calls_warp Nearest.warp img16 0%nat (Fz 0)
                   (inset p2m (Fz 4, Fz 4) (Width (Fz 1)) true (h0, t0)).2.1
                   (inset p2m (Fz 4, Fz 4) (Width (Fz 1)) true (h0, t0)).2.2
                   shift11 (Some [Fz 2; Fz 2])).
    cbv zeta in H.
    destruct H as (_ & _ & Hlog & Hres & _);
      [vm_compute; reflexivity | vm_compute; reflexivity
       | vm_compute; eexists; split; reflexivity |].
    split; [exact Hlog |].
    etrans; [exact Hres | vm_compute; reflexivity].
Defined.

Lemma set_frame_witness :
  deref h0 (_matrix t0) = Some (Mat eye3) /\
  exists (r : ref) (h' : heap) (t' : tform),
    set_frame zoom2 (h0, t0) = (Return tt, (h', t')) /\
    h0 !! r = None /\ _frame t' = Some r /\ h' !! r = Some (Mat zoom2) /\
    deref h' (params t') = Some (Mat (dot zoom2 eye3)) /\
    _paramv t' = _paramv t0 /\ _matrix t' = _matrix t0 /\
    deref h' (_matrix t') = Some (Mat eye3) /\
    (forall v, deref h0 (_paramv t0) = Some v -> deref h' (_paramv t') = Some v) /\
    h0 ⊆ h'.
Proof.
  split; [vm_compute; reflexivity |].
  apply (set_frame_copies_and_recomputes h0 t0 zoom2 eye3).
  vm_compute. reflexivity.
Defined.


End Examples.


(* ===================================================================== *)
(** ** Further properties: what the methods do to the store *)
(* ===================================================================== *)

Lemma same_float_eq (x y : float) : same_float x y = true -> x = y.
Proof.
  destruct x as [a | a | | a m e], y as [b | b | | b m' e']; simpl;
    try discriminate; try reflexivity.
  - intros H. apply Bool.eqb_prop in H. congruence.
  - intros H. apply Bool.eqb_prop in H. congruence.
  - intros H. apply andb_prop in H as [H He]. apply andb_prop in H as [Ha Hm].
    apply Bool.eqb_prop in Ha. apply Pos.eqb_eq in Hm. apply Z.eqb_eq in He.
    congruence.
Qed.

Lemma all_pairs_spec (f : Z -> Z -> bool) (n0 nlen w0 wlen : Z) :
  all_pairs f (seqZ n0 nlen) (seqZ w0 wlen) = true ->
  forall n w : Z, n0 <= n < n0 + nlen -> w0 <= w < w0 + wlen -> f n w = true.
Proof.
  unfold all_pairs. intros H n w Hn Hw.
  rewrite forallb_forall in H.
  assert (In n (seqZ n0 nlen)) as Hin
    by (apply list_elem_of_In, elem_of_seqZ; lia).
  specialize (H n Hin). rewrite forallb_forall in H.
  apply H. apply list_elem_of_In, elem_of_seqZ. lia.
Qed.

(** The line [self.params = self.frame.dot(self.matrix)] either returns,
    having allocated one buffer, or raises with the state as it was. *)
Lemma recompute_cases (h : heap) (t : tform) :
  (exists f a : mat3,
     deref h (_frame t) = Some (Mat f) /\ deref h (_matrix t) = Some (Mat a) /\
     recompute (h, t) =
       (Return tt, (<[fresh (dom h) := Mat (dot f a)]> h,
                    with_params (fresh (dom h)) t))) \/
  recompute (h, t) = (Raise AttributeError, (h, t)).
Proof.
  unfold recompute, mbind, M_bind, read_mat, new_array, assign. simpl.
  destruct (_frame t) as [rf |]; simpl; [| right; reflexivity].
  destruct (h !! rf) as [[v | f] |]; simpl; try (right; reflexivity).
  destruct (_matrix t) as [ra |]; simpl; [| right; reflexivity].
  destruct (h !! ra) as [[v | a] |]; simpl; try (right; reflexivity).
  left. exists f, a. repeat split; reflexivity.
Qed.

Lemma recompute_grows (s : state) :
  s.1 ⊆ (recompute s).2.1 /\ _ttype (recompute s).2.2 = _ttype s.2.
Proof.
  destruct s as [h t].
  destruct (recompute_cases h t) as [(f & a & _ & _ & E) | E]; rewrite E; simpl.
  - split; [apply alloc_subseteq | reflexivity].
  - split; reflexivity.
Qed.

Section Effects.

(** The two directions of the codec, whatever they are. *)
Variable p2m : ttype -> list float -> option mat3.
Variable m2p : ttype -> mat3 -> option (list float).

(** No call writes into a buffer that exists: the store only grows, and the
    family tag stays. *)
Lemma invoke_grows (c : method) (s : state) :
  s.1 ⊆ (invoke p2m m2p c s).2.1 /\
  _ttype (invoke p2m m2p c s).2.2 = _ttype s.2.
Proof.
  destruct s as [h t].
  destruct c as [v | m | f | shape frame crop]; simpl.
  - rewrite set_paramv_eq. cbv zeta.
    destruct (p2m (_ttype t) v) as [a |]; simpl.
    + match goal with |- context [recompute ?s] =>
        destruct (recompute_grows s) as [Hs Ht] end.
      simpl in Hs, Ht. split; [| exact Ht].
      etrans; [apply alloc_subseteq |]. etrans; [apply alloc_subseteq |].
      exact Hs.
    + split; [apply alloc_subseteq | reflexivity].
  - rewrite set_matrix_eq. cbv zeta.
    destruct (m2p (_ttype t) m) as [v |]; simpl.
    + match goal with |- context [recompute ?s] =>
        destruct (recompute_grows s) as [Hs Ht] end.
      simpl in Hs, Ht. split; [| exact Ht].
      etrans; [apply alloc_subseteq |]. etrans; [apply alloc_subseteq |].
      exact Hs.
    + split; [apply alloc_subseteq | reflexivity].
  - rewrite set_frame_eq. cbv zeta.
    match goal with |- context [recompute ?s] =>
      destruct (recompute_grows s) as [Hs Ht] end.
    simpl in Hs, Ht. split; [| exact Ht].
    etrans; [apply alloc_subseteq |]. exact Hs.
  - rewrite inset_eq. cbv zeta.
    destruct (p2m affine _) as [fm |]; simpl.
    + rewrite set_frame_eq. cbv zeta.
      match goal with |- context [recompute ?s] =>
        destruct (recompute_grows s) as [Hs Ht] end.
      simpl in Hs, Ht. split; [| exact Ht].
      etrans; [apply alloc_subseteq |]. etrans; [apply alloc_subseteq |].
      exact Hs.
    + split; [apply alloc_subseteq | reflexivity].
Qed.

(** The store after each call of a sequence contains the store before the
    first one. *)
Lemma run_grows (cs : list method) (s0 s : state) :
  s0.1 ⊆ s.1 ->
  Forall (fun r : outcome unit * state => s0.1 ⊆ r.2.1) (run p2m m2p cs s).
Proof.
  revert s. induction cs as [| c cs IH]; intros s Hsub; simpl.
  - constructor.
  - assert (Hc : s0.1 ⊆ (invoke p2m m2p c s).2.1)
      by (etrans; [exact Hsub | apply invoke_grows]).
    constructor; [exact Hc | exact (IH _ Hc)].
Qed.

(** X1.  In any sequence of calls, returning or raising, every array that
    existed before the first call holds the same content after each call:
    the setters and [inset] only bind attributes to new arrays. *)
Theorem run_never_writes_in_place (cs : list method) (s : state) :
  Forall (fun r : outcome unit * state =>
            forall (l : ref) (a : ndarray),
              s.1 !! l = Some a -> r.2.1 !! l = Some a)
         (run p2m m2p cs s).
Proof.
  pose proof (run_grows cs s s (reflexivity _)) as G.
  eapply Forall_impl; [exact G |].
  intros r Hr l a Hl. exact (lookup_weaken _ _ _ _ Hl Hr).
Qed.

(** X2.  The family tag of an instance is the same after every call of any
    sequence of calls. *)
Theorem run_keeps_ttype (cs : list method) (s : state) :
  Forall (fun r : outcome unit * state => _ttype r.2.2 = _ttype s.2)
         (run p2m m2p cs s).
Proof.
  assert (G : forall (cs : list method) (ty : ttype) (s : state),
              _ttype s.2 = ty ->
              Forall (fun r : outcome unit * state => _ttype r.2.2 = ty)
                     (run p2m m2p cs s)).
  { clear cs s. induction cs as [| c cs IH]; intros ty s Hty; simpl.
    - constructor.
    - assert (Hc : _ttype (invoke p2m m2p c s).2.2 = ty)
        by (rewrite <- Hty; apply invoke_grows).
      constructor; [exact Hc | exact (IH ty _ Hc)]. }
  exact (G cs (_ttype s.2) s eq_refl).
Qed.

(** X3.  From a well-formed instance, every state of a sequence of calls is
    well formed, after returning and after raising calls alike. *)
Theorem run_well_formed (cs : list method) (s : state) :
  well_formed s ->
  Forall (fun r : outcome unit * state => well_formed r.2) (run p2m m2p cs s).
Proof.
  revert s. induction cs as [| c cs IH]; intros s Hwf; simpl.
  - constructor.
  - pose proof (invoke_well_formed p2m m2p c s Hwf) as Hc.
    constructor; [exact Hc | exact (IH _ Hc)].
Qed.

Lemma fresh_unbound_below (h h' : heap) : h ⊆ h' -> h !! fresh (dom h') = None.
Proof.
  intros Hsub. destruct (h !! fresh (dom h')) as [x |] eqn:E; [| reflexivity].
  pose proof (lookup_weaken _ _ _ _ E Hsub) as Hx.
  rewrite fresh_unbound in Hx. discriminate.
Qed.

(** The state a returning [paramv] setter leaves. *)
Lemma set_paramv_result (v : list float) (h : heap) (t : tform) (a f : mat3) :
  p2m (_ttype t) v = Some a ->
  deref h (_frame t) = Some (Mat f) ->
  set_paramv p2m v (h, t) =
    let p := fresh (dom h) in
    let h1 := <[p := Vec v]> h in
    let r := fresh (dom h1) in
    let h2 := <[r := Mat a]> h1 in
    (Return tt, (<[fresh (dom h2) := Mat (dot f a)]> h2,
                 with_params (fresh (dom h2)) (with_matrix r (with_paramv p t)))).
Proof.
  intros Hc Hf. rewrite set_paramv_eq. cbv zeta. rewrite Hc.
  erewrite recompute_bound; [reflexivity | store_lookup; exact Hf | store_lookup].
Qed.

(** The state a returning [matrix] setter leaves. *)
Lemma set_matrix_result (m : mat3) (h : heap) (t : tform) (v : list float)
    (f : mat3) :
  m2p (_ttype t) m = Some v ->
  deref h (_frame t) = Some (Mat f) ->
  set_matrix m2p m (h, t) =
    let r := fresh (dom h) in
    let h1 := <[r := Mat m]> h in
    let p := fresh (dom h1) in
    let h2 := <[p := Vec v]> h1 in
    (Return tt, (<[fresh (dom h2) := Mat (dot f m)]> h2,
                 with_params (fresh (dom h2)) (with_paramv p (with_matrix r t)))).
Proof.
  intros Hc Hf. rewrite set_matrix_eq. cbv zeta. rewrite Hc.
  erewrite recompute_bound; [reflexivity | store_lookup; exact Hf | store_lookup].
Qed.

(** Three allocations in a row extend the store. *)
Lemma alloc3_subseteq (h : heap) (x y z : ndarray) :
  let h1 := <[fresh (dom h) := x]> h in
  let h2 := <[fresh (dom h1) := y]> h1 in
  h ⊆ <[fresh (dom h2) := z]> h2.
Proof.
  cbv zeta. etrans; [apply alloc_subseteq |].
  etrans; [apply alloc_subseteq |]. apply alloc_subseteq.
Qed.

(** X4.  When the codec accepts [v], [setParamVector(v)] binds [_paramv] to a
    new array holding [v] and [_matrix] to a new array holding the codec's
    matrix for [v], rebinds [params] to frame times that matrix, and leaves
    the frame, the output shape and every existing array as they were. *)
Theorem set_paramv_copies_and_derives (v : list float) (h : heap) (t : tform)
    (a f : mat3) :
  p2m (_ttype t) v = Some a ->
  deref h (_frame t) = Some (Mat f) ->
  exists (h' : heap) (t' : tform),
    set_paramv p2m v (h, t) = (Return tt, (h', t')) /\
    deref h' (_paramv t') = Some (Vec v) /\ deref h (_paramv t') = None /\
    deref h' (_matrix t') = Some (Mat a) /\ deref h (_matrix t') = None /\
    deref h' (params t') = Some (Mat (dot f a)) /\
    _frame t' = _frame t /\ _output_shape t' = _output_shape t /\
    h ⊆ h'.
Proof.
  intros Hc Hf. eexists _, _.
  split; [exact (set_paramv_result v h t a f Hc Hf) |]. simpl.
  split; [store_lookup |]. split; [apply fresh_unbound |].
  split; [store_lookup |].
  split; [apply fresh_unbound_below, alloc_subseteq |].
  split; [store_lookup |].
  split; [reflexivity |]. split; [reflexivity |].
  apply alloc3_subseteq.
Qed.

(** X5.  When the codec accepts [m], [setMatrix(m)] binds [_matrix] to a new
    array holding [m] and [_paramv] to a new array holding the codec's
    parameters for [m], rebinds [params] to frame times [m], and leaves the
    frame, the output shape and every existing array as they were. *)
Theorem set_matrix_copies_and_derives (m : mat3) (h : heap) (t : tform)
    (v : list float) (f : mat3) :
  m2p (_ttype t) m = Some v ->
  deref h (_frame t) = Some (Mat f) ->
  exists (h' : heap) (t' : tform),
    set_matrix m2p m (h, t) = (Return tt, (h', t')) /\
    deref h' (_matrix t') = Some (Mat m) /\ deref h (_matrix t') = None /\
    deref h' (_paramv t') = Some (Vec v) /\ deref h (_paramv t') = None /\
    deref h' (params t') = Some (Mat (dot f m)) /\
    _frame t' = _frame t /\ _output_shape t' = _output_shape t /\
    h ⊆ h'.
Proof.
  intros Hc Hf. eexists _, _.
  split; [exact (set_matrix_result m h t v f Hc Hf) |]. simpl.
  split; [store_lookup |]. split; [apply fresh_unbound |].
  split; [store_lookup |].
  split; [apply fresh_unbound_below, alloc_subseteq |].
  split; [store_lookup |].
  split; [reflexivity |]. split; [reflexivity |].
  apply alloc3_subseteq.
Qed.

(** X6.  When the codec rejects [v], [setParamVector(v)] raises after it
    has rebound [_paramv] to a new array holding [v]: the matrix, the frame,
    [params] and the output shape are the ones from before the call, so
    [params] is still frame times matrix if it was. *)
Theorem set_paramv_raises_after_rebinding (v : list float) (h : heap)
    (t : tform) :
  p2m (_ttype t) v = None ->
  exists s' : state,
    set_paramv p2m v (h, t) = (Raise CodecError, s') /\
    deref s'.1 (_paramv s'.2) = Some (Vec v) /\
    deref h (_paramv s'.2) = None /\
    _matrix s'.2 = _matrix t /\ _frame s'.2 = _frame t /\
    params s'.2 = params t /\ _output_shape s'.2 = _output_shape t /\
    h ⊆ s'.1 /\
    (effective_ok (h, t) -> effective_ok s').
Proof.
  intros E. rewrite set_paramv_eq. cbv zeta. rewrite E.
  eexists. split; [reflexivity |]. simpl.
  split; [apply lookup_insert_eq |]. split; [apply fresh_unbound |].
  repeat (split; [reflexivity |]).
  split; [apply alloc_subseteq |].
  intros (f & a & Hf & Ha & Hp). simpl in *.
  exists f, a. simpl. repeat split; store_lookup; assumption.
Qed.

(** A returning call keeps the parameter vector and the matrix in
    correspondence through the codec. *)
Lemma invoke_codec_consistent (c : method) (s s' : state) :
  codec_consistent p2m m2p s ->
  invoke p2m m2p c s = (Return tt, s') ->
  codec_consistent p2m m2p s'.
Proof.
  destruct s as [h t]. intros (v & a & Hv & Ha & Hva). simpl in *.
  destruct c as [v' | m | f' | shape frame crop]; simpl.
  - rewrite set_paramv_eq. cbv zeta.
    destruct (p2m (_ttype t) v') as [a' |] eqn:E; [| discriminate].
    intros H. apply recompute_inv in H as (f & b & _ & _ & ->).
    exists v', a'. simpl. split; [store_lookup |]. split; [store_lookup |].
    left. exact E.
  - rewrite set_matrix_eq. cbv zeta.
    destruct (m2p (_ttype t) m) as [v' |] eqn:E; [| discriminate].
    intros H. apply recompute_inv in H as (f & b & _ & _ & ->).
    exists v', m. simpl. split; [store_lookup |]. split; [store_lookup |].
    right. exact E.
  - rewrite set_frame_eq. cbv zeta.
    intros H. apply recompute_inv in H as (f & b & _ & _ & ->).
    exists v, a. simpl.
    split; [store_lookup; exact Hv |]. split; [store_lookup; exact Ha |].
    exact Hva.
  - rewrite inset_eq. cbv zeta.
    destruct (p2m affine _) as [fm |]; [| discriminate].
    rewrite set_frame_eq. cbv zeta.
    intros H. apply recompute_inv in H as (f & b & _ & _ & ->).
    exists v, a. simpl.
    split; [store_lookup; exact Hv |]. split; [store_lookup; exact Ha |].
    exact Hva.
Qed.

(** A returning call has done to the parameter vector and the matrix what
    [paramv_matrix_step] says of its kind. *)
Lemma invoke_paramv_matrix_step (c : method) (s s' : state) :
  invoke p2m m2p c s = (Return tt, s') ->
  paramv_matrix_step p2m m2p c s s'.
Proof.
  destruct s as [h t].
  destruct c as [v | m | f' | shape frame crop]; simpl.
  - rewrite set_paramv_eq. cbv zeta.
    destruct (p2m (_ttype t) v) as [a |] eqn:E; [| discriminate].
    intros H. apply recompute_inv in H as (f & b & _ & _ & ->).
    exists a. simpl. split; [reflexivity |]. split; store_lookup.
  - rewrite set_matrix_eq. cbv zeta.
    destruct (m2p (_ttype t) m) as [v |] eqn:E; [| discriminate].
    intros H. apply recompute_inv in H as (f & b & _ & _ & ->).
    exists v. simpl. split; [reflexivity |]. split; store_lookup.
  - rewrite set_frame_eq. cbv zeta.
    intros H. apply recompute_inv in H as (f & b & _ & _ & ->). simpl.
    split; [reflexivity |]. split; [reflexivity |].
    split; intros x Hx; store_lookup; exact Hx.
  - rewrite inset_eq. cbv zeta.
    destruct (p2m affine _) as [fm |]; [| discriminate].
    rewrite set_frame_eq. cbv zeta.
    intros H. apply recompute_inv in H as (f & b & _ & _ & ->). simpl.
    split; [reflexivity |]. split; [reflexivity |].
    split; intros x Hx; store_lookup; exact Hx.
Qed.

(** X7.  In a sequence of calls that all return, starting from an instance
    whose parameter vector and matrix correspond through the codec: after a
    [paramv] setter the instance has the given vector and the codec's
    matrix for it, after a [matrix] setter the given matrix and the codec's
    parameters for it, and the [frame] setter and [inset] leave the
    bindings and the contents of both as they were; so the two correspond
    through the codec after each call. *)
Theorem run_codec_consistent (cs : list method) (s : state) :
  codec_consistent p2m m2p s ->
  Forall (fun r : outcome unit * state => r.1 = Return tt) (run p2m m2p cs s) ->
  after_each_call p2m m2p cs s.
Proof.
  revert s. induction cs as [| c cs IH]; intros s Hs Hret; simpl in *.
  - exact I.
  - inversion Hret as [| r rs Hr Hrs]; subst.
    destruct (invoke p2m m2p c s) as [o s1] eqn:E. simpl in *. subst o.
    pose proof (invoke_codec_consistent c s s1 Hs E) as Hc.
    split; [exact (invoke_paramv_matrix_step c s s1 E) |].
    split; [exact Hc | exact (IH s1 Hc Hrs)].
Qed.

(** X8.  The constructor without arguments is the constructor on the
    identity parameter vector of the family: when the codec encodes the
    identity matrix as [v] and decodes [v] as [a], both return the same
    instance, with parameter vector [v], matrix [a], identity frame,
    effective matrix identity times [a] and no output shape. *)
Theorem init_default_is_identity (ty : ttype) (v : list float) (a : mat3)
    (h : heap) :
  m2p ty eye3 = Some v ->
  p2m ty v = Some a ->
  init p2m m2p ty None None h = init p2m m2p ty (Some v) None h /\
  exists (t : tform) (h' : heap),
    init p2m m2p ty None None h = (Return t, h') /\
    _ttype t = ty /\
    deref h' (_paramv t) = Some (Vec v) /\
    deref h' (_matrix t) = Some (Mat a) /\
    deref h' (_frame t) = Some (Mat eye3) /\
    deref h' (params t) = Some (Mat (dot eye3 a)) /\
    _output_shape t = None /\
    h ⊆ h'.
Proof.
  intros Hv Ha.
  assert (E : init p2m m2p ty None None h = init p2m m2p ty (Some v) None h).
  { unfold init, mbind, M_bind, new_array, assign, call. simpl.
    rewrite Hv. reflexivity. }
  split; [exact E |]. rewrite E.
  unfold init, mbind, M_bind, new_array, assign. simpl.
  erewrite set_paramv_result; [| exact Ha | store_lookup]. simpl.
  eexists _, _. split; [reflexivity |]. simpl.
  split; [reflexivity |]. split; [store_lookup |]. split; [store_lookup |].
  split; [store_lookup |]. split; [store_lookup |]. split; [reflexivity |].
  etrans; [apply alloc_subseteq |]. etrans; [apply alloc_subseteq |].
  apply alloc3_subseteq.
Qed.

(** X9.  The constructor returns an instance only if every codec call it
    makes returns: when the codec rejects the matrix, the parameter vector,
    or the identity, the constructor raises the codec's error. *)
Theorem init_raises_with_codec (ty : ttype) (pv : option (list float))
    (m : option mat3) (h : heap) :
  match m, pv with
  | Some a, _ => m2p ty a = None
  | None, Some v => p2m ty v = None
  | None, None =>
      m2p ty eye3 = None \/
      exists v, m2p ty eye3 = Some v /\ p2m ty v = None
  end ->
  (init p2m m2p ty pv m h).1 = Raise CodecError.
Proof.
  unfold init, mbind, M_bind, new_array, assign. simpl.
  destruct m as [a |]; [| destruct pv as [v |]].
  - intros E. rewrite set_matrix_eq. cbv zeta. simpl. rewrite E. reflexivity.
  - intros E. rewrite set_paramv_eq. cbv zeta. simpl. rewrite E. reflexivity.
  - intros [E | (v & Ev & E)]; unfold call.
    + rewrite E. reflexivity.
    + rewrite Ev. simpl. rewrite set_paramv_eq. cbv zeta. simpl.
      rewrite E. reflexivity.
Qed.

(** The state [clone] returns, given the vector the setter is run on. *)
Lemma clone_result (pv : option (list float)) (v : list float) (h : heap)
    (t : tform) (a f : mat3) :
  match pv with
  | Some v' => v' = v
  | None => deref h (_paramv t) = Some (Vec v)
  end ->
  p2m (_ttype t) v = Some a ->
  deref h (_frame t) = Some (Mat f) ->
  clone p2m pv (h, t) =
    let p := fresh (dom h) in
    let h1 := <[p := Vec v]> h in
    let r := fresh (dom h1) in
    let h2 := <[r := Mat a]> h1 in
    (Return (with_params (fresh (dom h2)) (with_matrix r (with_paramv p t))),
     <[fresh (dom h2) := Mat (dot f a)]> h2).
Proof.
  intros Hpv Hc Hf. unfold clone. simpl.
  destruct pv as [v' |].
  - subst v'. rewrite (set_paramv_result v h t a f Hc Hf). reflexivity.
  - unfold mbind, M_bind.
    rewrite (read_vec_bound _paramv (h, t) v Hpv).
    rewrite (set_paramv_result v h t a f Hc Hf). reflexivity.
Qed.

(** X10.  [clone()] on an instance whose parameter vector the codec accepts
    returns an instance of the same family whose parameter vector equals the
    source's, in an array that did not exist before; its matrix and
    effective matrix are new arrays too, derived from that vector and the
    frame, and no array of the source is modified. *)
Theorem clone_copies_parameters (v : list float) (h : heap) (t : tform)
    (a f : mat3) :
  deref h (_paramv t) = Some (Vec v) ->
  p2m (_ttype t) v = Some a ->
  deref h (_frame t) = Some (Mat f) ->
  exists (c : tform) (h' : heap),
    clone p2m None (h, t) = (Return c, h') /\
    _ttype c = _ttype t /\
    deref h' (_paramv c) = Some (Vec v) /\ deref h (_paramv c) = None /\
    deref h' (_matrix c) = Some (Mat a) /\ deref h (_matrix c) = None /\
    deref h' (params c) = Some (Mat (dot f a)) /\ deref h (params c) = None /\
    deref h' (_frame c) = Some (Mat f) /\
    h ⊆ h'.
Proof.
  intros Hv Hc Hf. eexists _, _.
  split; [exact (clone_result None v h t a f Hv Hc Hf) |]. simpl.
  split; [reflexivity |].
  split; [store_lookup |]. split; [apply fresh_unbound |].
  split; [store_lookup |].
  split; [apply fresh_unbound_below, alloc_subseteq |].
  split; [store_lookup |].
  split; [apply fresh_unbound_below; etrans; apply alloc_subseteq |].
  split; [store_lookup; exact Hf |].
  apply alloc3_subseteq.
Qed.

(** X11.  [clone(paramv)] with a vector [v] the codec accepts returns an
    instance whose parameter vector is [v] and whose matrix and effective
    matrix are derived from [v] and the frame of the source, all in new
    arrays; the source keeps its own parameter vector, and no array of the
    source is modified. *)
Theorem clone_with_paramv (v : list float) (h : heap) (t : tform)
    (a f : mat3) :
  p2m (_ttype t) v = Some a ->
  deref h (_frame t) = Some (Mat f) ->
  exists (c : tform) (h' : heap),
    clone p2m (Some v) (h, t) = (Return c, h') /\
    _ttype c = _ttype t /\
    deref h' (_paramv c) = Some (Vec v) /\ deref h (_paramv c) = None /\
    deref h' (_matrix c) = Some (Mat a) /\ deref h (_matrix c) = None /\
    deref h' (params c) = Some (Mat (dot f a)) /\ deref h (params c) = None /\
    (forall x, deref h (_paramv t) = Some x -> deref h' (_paramv t) = Some x) /\
    h ⊆ h'.
Proof.
  intros Hc Hf. eexists _, _.
  split; [exact (clone_result (Some v) v h t a f eq_refl Hc Hf) |]. simpl.
  split; [reflexivity |].
  split; [store_lookup |]. split; [apply fresh_unbound |].
  split; [store_lookup |].
  split; [apply fresh_unbound_below, alloc_subseteq |].
  split; [store_lookup |].
  split; [apply fresh_unbound_below; etrans; apply alloc_subseteq |].
  split; [intros x Hx; store_lookup; exact Hx |].
  apply alloc3_subseteq.
Qed.

(** [clone] only allocates. *)
Lemma clone_grows (pv : option (list float)) (s : state) :
  s.1 ⊆ (clone p2m pv s).2.
Proof.
  destruct s as [h t]. unfold clone. simpl.
  assert (G : forall v, h ⊆ (set_paramv p2m v (h, t)).2.1).
  { intros v. rewrite set_paramv_eq. cbv zeta.
    destruct (p2m (_ttype t) v) as [a |]; simpl; [| apply alloc_subseteq].
    match goal with |- context [recompute ?s] =>
      destruct (recompute_grows s) as [Hs _] end.
    simpl in Hs. etrans; [apply alloc_subseteq |].
    etrans; [apply alloc_subseteq |]. exact Hs. }
  destruct pv as [v |].
  - specialize (G v). destruct (set_paramv p2m v (h, t)) as [[u | e] [h1 c]];
      exact G.
  - unfold mbind, M_bind, read_vec. simpl.
    destruct (_paramv t) as [r |]; simpl; [| reflexivity].
    destruct (h !! r) as [[v | m] |]; simpl; try reflexivity.
    specialize (G v). destruct (set_paramv p2m v (h, t)) as [[u | e] [h1 c]];
      exact G.
Qed.

(** X12.  After a clone, the interface keeps the two instances apart: through
    any sequence of setParamVector, setMatrix, setFrame and inset calls on
    the clone, and through any such sequence on the source, every array
    that existed when [clone] returned holds the same content. *)
Theorem calls_after_clone_keep_arrays (pv : option (list float)) (h h' : heap)
    (t c : tform) (cs : list method) :
  clone p2m pv (h, t) = (Return c, h') ->
  h ⊆ h' /\
  Forall (fun r : outcome unit * state =>
            forall (l : ref) (a : ndarray),
              h' !! l = Some a -> r.2.1 !! l = Some a)
         (run p2m m2p cs (h', c)) /\
  Forall (fun r : outcome unit * state =>
            forall (l : ref) (a : ndarray),
              h' !! l = Some a -> r.2.1 !! l = Some a)
         (run p2m m2p cs (h', t)).
Proof.
  intros E.
  split; [pose proof (clone_grows pv (h, t)) as G; rewrite E in G; exact G |].
  split.
  - pose proof (run_grows cs (h', c) (h', c) (reflexivity _)) as G.
    eapply Forall_impl; [exact G |].
    intros r Hr l a Hl. exact (lookup_weaken _ _ _ _ Hl Hr).
  - pose proof (run_grows cs (h', t) (h', t) (reflexivity _)) as G.
    eapply Forall_impl; [exact G |].
    intros r Hr l a Hl. exact (lookup_weaken _ _ _ _ Hl Hr).
Qed.

(** X13.  When the codec accepts the frame parameters, [inset] returns: it
    binds [_output_shape] to a new array, [_frame] to the codec's matrix and
    [params] to that matrix times the current matrix, and leaves the
    parameter vector, the matrix and every existing array as they were. *)
Theorem inset_composes_with_matrix (shape : float * float)
    (frame : frame_spec) (crop : bool) (h : heap) (t : tform)
    (a framemat : mat3) :
  let bounds := resolved_bounds shape frame in
  p2m affine (inset_params (inset_scale shape bounds crop) bounds)
    = Some framemat ->
  deref h (_matrix t) = Some (Mat a) ->
  exists s' : state,
    inset p2m shape frame crop (h, t) = (Return tt, s') /\
    deref s'.1 (_frame s'.2) = Some (Mat framemat) /\
    deref s'.1 (params s'.2) = Some (Mat (dot framemat a)) /\
    deref s'.1 (_output_shape s'.2)
      = Some (Vec (inset_output_shape shape bounds crop)) /\
    deref h (_output_shape s'.2) = None /\
    _paramv s'.2 = _paramv t /\ _matrix s'.2 = _matrix t /\
    h ⊆ s'.1.
Proof.
  intros bounds Hc Ha. rewrite inset_eq. cbv zeta. fold bounds. rewrite Hc.
  rewrite set_frame_eq. cbv zeta.
  erewrite recompute_bound; [| store_lookup | store_lookup; exact Ha].
  eexists. split; [reflexivity |]. simpl.
  split; [store_lookup |]. split; [store_lookup |]. split; [store_lookup |].
  split; [apply fresh_unbound |]. split; [reflexivity |].
  split; [reflexivity |]. apply alloc3_subseteq.
Qed.

(** X14.  When the codec rejects the frame parameters, [inset] raises after
    it has rebound [_output_shape]: the instance keeps its frame and its
    effective matrix but has the output shape of the rejected window. *)
Theorem inset_raises_after_output_shape (shape : float * float)
    (frame : frame_spec) (crop : bool) (h : heap) (t : tform) :
  let bounds := resolved_bounds shape frame in
  p2m affine (inset_params (inset_scale shape bounds crop) bounds) = None ->
  exists s' : state,
    inset p2m shape frame crop (h, t) = (Raise CodecError, s') /\
    deref s'.1 (_output_shape s'.2)
      = Some (Vec (inset_output_shape shape bounds crop)) /\
    _frame s'.2 = _frame t /\ params s'.2 = params t /\
    _paramv s'.2 = _paramv t /\ _matrix s'.2 = _matrix t /\
    h ⊆ s'.1.
Proof.
  intros bounds Hc. rewrite inset_eq. cbv zeta. fold bounds. rewrite Hc.
  eexists. split; [reflexivity |]. simpl.
  split; [store_lookup |]. repeat (split; [reflexivity |]).
  apply alloc_subseteq.
Qed.

(** X15.  When the codec rejects [m], [setMatrix(m)] raises after it has
    rebound [_matrix] to a new array holding [m]: the parameter vector, the
    frame and [params] are the ones from before the call, so [params] is
    still the product for the old matrix. *)
Theorem set_matrix_raises_after_rebinding (m : mat3) (h : heap) (t : tform) :
  m2p (_ttype t) m = None ->
  exists s' : state,
    set_matrix m2p m (h, t) = (Raise CodecError, s') /\
    deref s'.1 (_matrix s'.2) = Some (Mat m) /\
    deref h (_matrix s'.2) = None /\
    params s'.2 = params t /\ _frame s'.2 = _frame t /\
    _paramv s'.2 = _paramv t /\
    h ⊆ s'.1.
Proof.
  intros E. rewrite set_matrix_eq. cbv zeta. rewrite E.
  eexists. split; [reflexivity |]. simpl.
  split; [apply lookup_insert_eq |]. split; [apply fresh_unbound |].
  repeat (split; [reflexivity |]). apply alloc_subseteq.
Qed.

(** X16.  Every instance the constructor returns has the family it was asked
    for, all its array attributes bound, the identity as frame, no output
    shape, an effective matrix equal to frame times matrix, and a parameter
    vector and a matrix that correspond through the codec. *)
Theorem init_establishes_invariants (ty : ttype) (pv : option (list float))
    (m : option mat3) (h h' : heap) (t : tform) :
  init p2m m2p ty pv m h = (Return t, h') ->
  _ttype t = ty /\
  well_formed (h', t) /\ effective_ok (h', t) /\
  codec_consistent p2m m2p (h', t) /\
  deref h' (_frame t) = Some (Mat eye3) /\
  _output_shape t = None.
Proof.
  intros H.
  destruct (init_well_formed p2m m2p ty pv m h h' t H) as [Hwf Heff].
  revert H. unfold init, mbind, M_bind, new_array, assign. simpl.
  destruct m as [a |]; [| destruct pv as [v |]].
  - rewrite set_matrix_eq. cbv zeta. simpl.
    destruct (m2p ty a) as [v |] eqn:E; [| discriminate].
    erewrite recompute_bound; [| store_lookup | store_lookup].
    intros H. inversion H; subst; clear H. simpl.
    split; [reflexivity |]. split; [exact Hwf |]. split; [exact Heff |].
    split; [| split; [store_lookup | reflexivity]].
    exists v, a. simpl. split; [store_lookup |]. split; [store_lookup |].
    right. exact E.
  - rewrite set_paramv_eq. cbv zeta. simpl.
    destruct (p2m ty v) as [a |] eqn:E; [| discriminate].
    erewrite recompute_bound; [| store_lookup | store_lookup].
    intros H. inversion H; subst; clear H. simpl.
    split; [reflexivity |]. split; [exact Hwf |]. split; [exact Heff |].
    split; [| split; [store_lookup | reflexivity]].
    exists v, a. simpl. split; [store_lookup |]. split; [store_lookup |].
    left. exact E.
  - unfold call. destruct (m2p ty eye3) as [v |]; [| discriminate]. simpl.
    rewrite set_paramv_eq. cbv zeta. simpl.
    destruct (p2m ty v) as [a |] eqn:E; [| discriminate].
    erewrite recompute_bound; [| store_lookup | store_lookup].
    intros H. inversion H; subst; clear H. simpl.
    split; [reflexivity |]. split; [exact Hwf |]. split; [exact Heff |].
    split; [| split; [store_lookup | reflexivity]].
    exists v, a. simpl. split; [store_lookup |]. split; [store_lookup |].
    left. exact E.
Qed.

End Effects.

(* ===================================================================== *)
(** ** Further properties: the post-processing of [imtransform] *)
(* ===================================================================== *)

Lemma eqb_zero_finite (cval : float) :
  F64.eqb cval F64.zero = true -> F64.isfinite cval = true.
Proof.
  destruct cval as [s | s | | s m e]; try destruct s; cbv; congruence.
Qed.

Lemma nan_to_num_isfinite (x : float) : F64.isfinite (F64.nan_to_num x) = true.
Proof. destruct x as [s | s | | s m e]; try destruct s; reflexivity. Qed.

(** With a finite [cval], no pixel of the post-processed image is NaN or
    infinite. *)
Lemma fill_value_isfinite (cval x : float) :
  F64.isfinite cval = true -> F64.isfinite (fill_value cval x) = true.
Proof.
  intros Hc. unfold fill_value.
  destruct (F64.eqb cval F64.zero); [apply nan_to_num_isfinite |].
  rewrite Hc. destruct (F64.isfinite x) eqn:Hx; [exact Hx | exact Hc].
Qed.

Lemma fill_value_not_finite (cval x : float) :
  F64.isfinite cval = false -> fill_value cval x = x.
Proof.
  intros Hc. unfold fill_value.
  destruct (F64.eqb cval F64.zero) eqn:E.
  - apply eqb_zero_finite in E. congruence.
  - rewrite Hc. reflexivity.
Qed.

Lemma fill_value_idempotent (cval x : float) :
  fill_value cval (fill_value cval x) = fill_value cval x.
Proof.
  destruct (F64.isfinite cval) eqn:Hc.
  - apply fill_value_finite, fill_value_isfinite, Hc.
  - rewrite !(fill_value_not_finite cval) by exact Hc. reflexivity.
Qed.

(** X17.  The post-processing of [imtransform] is idempotent: applied to its
    own result it changes nothing. *)
Theorem fill_idempotent (cval : float) (timage : image) :
  fill cval (fill cval timage) = fill cval timage.
Proof.
  rewrite !fill_map. rewrite map_map.
  apply map_ext. intros row. rewrite map_map.
  apply map_ext. intros x. apply fill_value_idempotent.
Qed.

Lemma lookup_map {A B : Type} (f : A -> B) (l : list A) (i : nat) :
  map f l !! i = f <$> (l !! i).
Proof.
  revert i. induction l as [| x l IH]; intros [| i]; simpl; try reflexivity.
  apply IH.
Qed.

Section Compositor.

(** The resampling primitive, whatever it is. *)
Variable warp : warp_call -> option image.

(** What a returning [imtransform] has done. *)
Lemma imtransform_returns (img : image) (order : nat) (cval : float)
    (s : state) (log : list warp_call) (out : image) :
  imtransform warp img order cval s = (log, Return out) ->
  all_self_equal img = true /\
  exists (c : warp_call) (timage : image),
    log = [c] /\ w_image c = img /\ w_order c = order /\
    warp c = Some timage /\ out = fill cval timage.
Proof.
  unfold imtransform.
  destruct (all_self_equal img); simpl; [| discriminate].
  destruct (read_mat params s) as [[p | e] s1]; [| discriminate].
  destruct (read_output_shape s) as [[os | e] s2]; [| discriminate].
  destruct (warp _) as [timage |] eqn:E; [| discriminate].
  intros H. inversion H; subst; clear H.
  split; [reflexivity |]. eexists _, timage.
  split; [reflexivity |]. split; [reflexivity |]. split; [reflexivity |].
  split; [exact E | reflexivity].
Qed.

(** X18.  Whenever [imtransform] returns for a finite [cval], every pixel of
    the returned image is finite, whatever the resampling primitive gave:
    neither NaN nor an infinity is left. *)
Theorem imtransform_finite_cval_all_finite (img : image) (order : nat)
    (cval : float) (s : state) (log : list warp_call) (out : image) :
  F64.isfinite cval = true ->
  imtransform warp img order cval s = (log, Return out) ->
  forallb (forallb F64.isfinite) out = true.
Proof.
  intros Hc H.
  apply imtransform_returns in H as (_ & c & timage & _ & _ & _ & _ & ->).
  rewrite fill_map.
  apply forallb_forall. intros row' Hrow'.
  apply in_map_iff in Hrow' as (row & <- & _).
  apply forallb_forall. intros x' Hx'.
  apply in_map_iff in Hx' as (x & <- & _).
  apply fill_value_isfinite, Hc.
Qed.

(** X19.  Whenever [imtransform] returns for a [cval] that is NaN or
    infinite, the returned image is the result of the resampling primitive
    as it is, with its NaN pixels. *)
Theorem imtransform_nonfinite_cval_raw (img : image) (order : nat)
    (cval : float) (s : state) (log : list warp_call) (out : image) :
  F64.isfinite cval = false ->
  imtransform warp img order cval s = (log, Return out) ->
  exists c : warp_call, log = [c] /\ warp c = Some out.
Proof.
  intros Hc H.
  apply imtransform_returns in H as (_ & c & timage & -> & _ & _ & Hw & ->).
  exists c. split; [reflexivity |]. rewrite Hw. f_equal.
  unfold fill.
  destruct (F64.eqb cval F64.zero) eqn:E;
    [apply eqb_zero_finite in E; congruence |].
  rewrite Hc. reflexivity.
Qed.

(** X20.  Whenever [imtransform] returns, the returned image has the rows and
    columns of the primitive's result, every finite pixel of that result is
    returned unchanged, and every NaN pixel of it is returned as 0.0 for
    [cval == 0], as [cval] for another finite [cval], and as NaN
    otherwise. *)
Theorem imtransform_pixelwise (img : image) (order : nat) (cval : float)
    (s : state) (log : list warp_call) (out : image) :
  imtransform warp img order cval s = (log, Return out) ->
  exists (c : warp_call) (timage : image),
    log = [c] /\ warp c = Some timage /\
    length out = length timage /\
    forall (i j : nat) (row : list float) (x : float),
      timage !! i = Some row -> row !! j = Some x ->
      exists row' : list float,
        out !! i = Some row' /\ length row' = length row /\
        (F64.isfinite x = true -> row' !! j = Some x) /\
        (F64.is_nan x = true ->
         row' !! j = Some (if F64.eqb cval F64.zero then F64.zero
                           else if F64.isfinite cval then cval else F64.nan)).
Proof.
  intros H.
  apply imtransform_returns in H as (_ & c & timage & -> & _ & _ & Hw & ->).
  exists c, timage. split; [reflexivity |]. split; [exact Hw |].
  rewrite fill_map. split; [apply length_map |].
  intros i j row x Hrow Hx. unfold image in *.
  exists (map (fill_value cval) row).
  split; [| split; [apply length_map | split]].
  - rewrite lookup_map, Hrow. reflexivity.
  - intros Hfin. rewrite lookup_map, Hx. simpl.
    rewrite (fill_value_finite cval x Hfin). reflexivity.
  - intros Hnan. rewrite lookup_map, Hx. simpl.
    destruct x; try discriminate. rewrite fill_value_nan. reflexivity.
Qed.

End Compositor.

(* ===================================================================== *)
(** ** Further properties: [inset] on integer shapes *)
(* ===================================================================== *)

Lemma width_axis_checked :
  all_pairs width_axis_ok (seqZ 1 512) (seqZ 0 33) = true.
Proof. vm_compute. reflexivity. Qed.

Lemma size_axis_checked :
  all_pairs (fun n k => (n <? k) || size_axis_ok n k)
            (seqZ 1 128) (seqZ 1 128) = true.
Proof. vm_compute. reflexivity. Qed.

Lemma full_axis_checked :
  all_pairs (fun n _ => full_axis_ok n) (seqZ 2 2047) (seqZ 0 1) = true.
Proof. vm_compute. reflexivity. Qed.

Lemma width_axis_facts (n w : Z) :
  1 <= n <= 512 -> 0 <= w <= 32 ->
  wrap_negative (Fz n) (Fz w) = Fz w /\
  wrap_negative (Fz n) (F64.sub (F64.opp (Fz w)) F64.one) = Fz (n - w - 1) /\
  F64.add (F64.sub (Fz (n - w - 1)) (Fz w)) F64.one = Fz (n - 2 * w).
Proof.
  intros Hn Hw.
  assert (H : width_axis_ok n w = true)
    by (apply (all_pairs_spec _ _ _ _ _ width_axis_checked); lia).
  unfold width_axis_ok in H. cbv zeta in H.
  apply andb_prop in H as [H H3]. apply andb_prop in H as [H1 H2].
  apply same_float_eq in H1, H2, H3. rewrite H1, H2 in H3.
  repeat split; assumption.
Qed.

Lemma size_axis_facts (n k : Z) :
  1 <= k <= n -> n <= 128 ->
  let i := F64.div (F64.sub (Fz n) (Fz k)) F64.two in
  wrap_negative (Fz n) (F64.floor i) = Fz ((n - k) / 2) /\
  wrap_negative (Fz n) (F64.floor (F64.sub (F64.opp i) F64.one))
    = Fz ((n - k) / 2 + k - 1) /\
  F64.add (F64.sub (Fz ((n - k) / 2 + k - 1)) (Fz ((n - k) / 2))) F64.one
    = Fz k.
Proof.
  intros Hk Hn i.
  assert (H : (n <? k) || size_axis_ok n k = true)
    by (apply (all_pairs_spec _ _ _ _ _ size_axis_checked); lia).
  replace (n <? k) with false in H by (symmetry; apply Z.ltb_ge; lia).
  simpl in H. unfold size_axis_ok in H. cbv zeta in H. fold i in H.
  apply andb_prop in H as [H H3]. apply andb_prop in H as [H1 H2].
  apply same_float_eq in H1, H2, H3. rewrite H1, H2 in H3.
  repeat split; assumption.
Qed.

Lemma full_axis_facts (n : Z) :
  2 <= n <= 2048 ->
  wrap_negative (Fz n) (Fz 0) = Fz 0 /\
  wrap_negative (Fz n) (Fz (n - 1)) = Fz (n - 1) /\
  F64.div (F64.sub (Fz (n - 1)) (Fz 0)) (F64.sub (Fz n) F64.one) = Fz 1.
Proof.
  intros Hn.
  assert (H : full_axis_ok n = true)
    by (apply (all_pairs_spec (fun n _ => full_axis_ok n) _ _ _ _
                 full_axis_checked n 0); lia).
  unfold full_axis_ok in H. cbv zeta in H.
  apply andb_prop in H as [H H3]. apply andb_prop in H as [H1 H2].
  apply same_float_eq in H1, H2, H3. rewrite H1, H2 in H3.
  repeat split; assumption.
Qed.

Section InsetOnIntegers.

(** The matrix direction of the codec, whatever it is. *)
Variable p2m : ttype -> list float -> option mat3.

(** X21.  For an image of [n] rows and [m] columns (up to 512 each) and a
    pixel width [w] (up to 32), a returning [inset] with [crop] has bound
    the output shape to [(n - 2w, m - 2w)] and the frame to the codec's
    matrix for the affine parameters [1, 0, w, 0, 1, w]: scale 1 and origin
    [(w, w)]. *)
Theorem inset_width_crop (n m w : Z) (h : heap) (t : tform) (s' : state) :
  1 <= n <= 512 -> 1 <= m <= 512 -> 0 <= w <= 32 ->
  inset p2m (Fz n, Fz m) (Width (Fz w)) true (h, t) = (Return tt, s') ->
  deref s'.1 (_output_shape s'.2)
    = Some (Vec [Fz (n - 2 * w); Fz (m - 2 * w)]) /\
  exists framemat : mat3,
    p2m affine [Fz 1; Fz 0; Fz w; Fz 0; Fz 1; Fz w] = Some framemat /\
    deref s'.1 (_frame s'.2) = Some (Mat framemat).
Proof.
  intros Hn Hm Hw H.
  destruct (width_axis_facts n w Hn Hw) as (Hn1 & Hn2 & Hn3).
  destruct (width_axis_facts m w Hm Hw) as (Hm1 & Hm2 & Hm3).
  assert (Hb : resolved_bounds (Fz n, Fz m) (Width (Fz w))
               = ((Fz w, Fz w), (Fz (n - w - 1), Fz (m - w - 1)))).
  { unfold resolved_bounds, resolve_negative, raw_bounds. cbn [fst snd].
    rewrite Hn1, Hn2, Hm1, Hm2. reflexivity. }
  apply inset_inv in H as (framemat & Hc & Hf & Ho).
  rewrite Hb in Hc, Ho.
  unfold inset_output_shape in Ho. cbn [fst snd] in Ho.
  rewrite Hn3, Hm3 in Ho.
  split; [exact Ho |]. exists framemat. split; [exact Hc | exact Hf].
Qed.

(** X22.  For an image of [n] rows and [m] columns (up to 128 each) and a
    cropped size of [k] rows and [j] columns that fits, a returning [inset]
    with [crop] has bound the output shape to exactly [(k, j)] and the
    frame to the codec's matrix for scale 1 and the origin
    [((n - k) / 2, (m - j) / 2)] rounded down: the window is centred. *)
Theorem inset_size_crop (n m k j : Z) (h : heap) (t : tform) (s' : state) :
  1 <= k <= n -> n <= 128 -> 1 <= j <= m -> m <= 128 ->
  inset p2m (Fz n, Fz m) (Size (Fz k) (Fz j)) true (h, t) = (Return tt, s') ->
  deref s'.1 (_output_shape s'.2) = Some (Vec [Fz k; Fz j]) /\
  exists framemat : mat3,
    p2m affine [Fz 1; Fz 0; Fz ((m - j) / 2); Fz 0; Fz 1; Fz ((n - k) / 2)]
      = Some framemat /\
    deref s'.1 (_frame s'.2) = Some (Mat framemat).
Proof.
  intros Hk Hn Hj Hm H.
  destruct (size_axis_facts n k Hk Hn) as (Hn1 & Hn2 & Hn3).
  destruct (size_axis_facts m j Hj Hm) as (Hm1 & Hm2 & Hm3).
  assert (Hb : resolved_bounds (Fz n, Fz m) (Size (Fz k) (Fz j))
               = ((Fz ((n - k) / 2), Fz ((m - j) / 2)),
                  (Fz ((n - k) / 2 + k - 1), Fz ((m - j) / 2 + j - 1)))).
  { unfold resolved_bounds, resolve_negative, raw_bounds. cbn [fst snd].
    rewrite Hn1, Hn2, Hm1, Hm2. reflexivity. }
  apply inset_inv in H as (framemat & Hc & Hf & Ho).
  rewrite Hb in Hc, Ho.
  unfold inset_output_shape in Ho. cbn [fst snd] in Ho.
  rewrite Hn3, Hm3 in Ho.
  split; [exact Ho |]. exists framemat. split; [exact Hc | exact Hf].
Qed.

(** X23.  For an image of [n] rows and [m] columns (from 2 up to 2048 each)
    and the window from pixel (0, 0) to pixel (n - 1, m - 1), a returning
    [inset] without [crop] has bound the output shape to [(n, m)] and the
    frame to the codec's matrix for the affine parameters
    [1, 0, 0, 0, 1, 0]: the zoom into the whole image is the identity. *)
Theorem inset_full_window_zoom (n m : Z) (h : heap) (t : tform) (s' : state) :
  2 <= n <= 2048 -> 2 <= m <= 2048 ->
  inset p2m (Fz n, Fz m) (Box (Fz 0) (Fz 0) (Fz (n - 1)) (Fz (m - 1))) false
        (h, t) = (Return tt, s') ->
  deref s'.1 (_output_shape s'.2) = Some (Vec [Fz n; Fz m]) /\
  exists framemat : mat3,
    p2m affine [Fz 1; Fz 0; Fz 0; Fz 0; Fz 1; Fz 0] = Some framemat /\
    deref s'.1 (_frame s'.2) = Some (Mat framemat).
Proof.
  intros Hn Hm H.
  destruct (full_axis_facts n Hn) as (Hn1 & Hn2 & Hn3).
  destruct (full_axis_facts m Hm) as (Hm1 & Hm2 & Hm3).
  assert (Hb : resolved_bounds (Fz n, Fz m)
                 (Box (Fz 0) (Fz 0) (Fz (n - 1)) (Fz (m - 1)))
               = ((Fz 0, Fz 0), (Fz (n - 1), Fz (m - 1)))).
  { unfold resolved_bounds, resolve_negative, raw_bounds. cbn [fst snd].
    rewrite Hn1, Hn2, Hm1, Hm2. reflexivity. }
  apply inset_inv in H as (framemat & Hc & Hf & Ho).
  rewrite Hb in Hc, Ho.
  unfold inset_params, inset_scale in Hc. cbn [fst snd] in Hc.
  rewrite Hn3, Hm3 in Hc.
  split; [exact Ho |]. exists framemat. split; [exact Hc | exact Hf].
Qed.

End InsetOnIntegers.

(* ===================================================================== *)
(** ** Closed instances of the further properties *)
(* ===================================================================== *)

Module Checks.

Import Sample.

Abbreviation p2m := Toolbox.parameters_to_projective_matrix.
Abbreviation m2p := Toolbox.projective_matrix_to_parameters.

(** The identity parameters of the affine family. *)
Abbreviation id6 := [Fz 1; Fz 0; Fz 0; Fz 0; Fz 1; Fz 0].

(** A shift by (3, 4). *)
Abbreviation shift6 := [Fz 1; Fz 0; Fz 3; Fz 0; Fz 1; Fz 4].

Lemma sample_well_formed : well_formed (h0, t0).
Proof.
  unfold well_formed. simpl.
  split; [eexists; vm_compute; reflexivity |].
  split; [eexists; vm_compute; reflexivity |].
  split; [eexists; vm_compute; reflexivity |].
  split; [eexists; vm_compute; reflexivity |].
  left. reflexivity.
Defined.

Lemma sample_effective_ok : effective_ok (h0, t0).
Proof. exists eye3, eye3. repeat split; vm_compute; reflexivity. Defined.

Lemma sample_codec_consistent : codec_consistent p2m m2p (h0, t0).
Proof.
  exists id6, eye3.
  split; [vm_compute; reflexivity |]. split; [vm_compute; reflexivity |].
  left. vm_compute. reflexivity.
Defined.

Lemma run_well_formed_witness :
  well_formed (h0, t0) /\
  Forall (fun r : outcome unit * state => well_formed r.2)
         (run p2m m2p [SetFrame zoom2; SetParamVector [Fz 1]; SetMatrix zoom2]
              (h0, t0)).
Proof.
  split; [exact sample_well_formed |].
  exact (run_well_formed p2m m2p _ (h0, t0) sample_well_formed).
Defined.

Lemma set_paramv_witness :
  p2m (_ttype t0) shift6 = Some (Mat3 (Fz 1) (Fz 0) (Fz 3) (Fz 0) (Fz 1) (Fz 4)
                                     (Fz 0) (Fz 0) (Fz 1)) /\
  deref h0 (_frame t0) = Some (Mat eye3) /\
  exists (h' : heap) (t' : tform),
    set_paramv p2m shift6 (h0, t0) = (Return tt, (h', t')) /\
    deref h' (_paramv t') = Some (Vec shift6).
Proof.
  split; [vm_compute; reflexivity |]. split; [vm_compute; reflexivity |].
  destruct (set_paramv_copies_and_derives p2m shift6 h0 t0
              (Mat3 (Fz 1) (Fz 0) (Fz 3) (Fz 0) (Fz 1) (Fz 4)
                    (Fz 0) (Fz 0) (Fz 1)) eye3)
    as (h' & t' & E & Hv & _);
    [vm_compute; reflexivity | vm_compute; reflexivity |].
  exists h', t'. split; [exact E | exact Hv].
Defined.

Lemma set_matrix_witness :
  m2p (_ttype t0) zoom2 = Some [Fz 2; Fz 0; Fz 1; Fz 0; Fz 2; Fz 1] /\
  deref h0 (_frame t0) = Some (Mat eye3) /\
  exists (h' : heap) (t' : tform),
    set_matrix m2p zoom2 (h0, t0) = (Return tt, (h', t')) /\
    deref h' (_paramv t') = Some (Vec [Fz 2; Fz 0; Fz 1; Fz 0; Fz 2; Fz 1]) /\
    deref h' (params t') = Some (Mat (dot eye3 zoom2)).
Proof.
  split; [vm_compute; reflexivity |]. split; [vm_compute; reflexivity |].
  destruct (set_matrix_copies_and_derives m2p zoom2 h0 t0
              [Fz 2; Fz 0; Fz 1; Fz 0; Fz 2; Fz 1] eye3)
    as (h' & t' & E & _ & _ & Hv & _ & Hp & _);
    [vm_compute; reflexivity | vm_compute; reflexivity |].
  exists h', t'. split; [exact E |]. split; [exact Hv | exact Hp].
Defined.

Lemma set_paramv_raises_witness :
  p2m (_ttype t0) [Fz 1] = None /\
  effective_ok (h0, t0) /\
  exists s' : state,
    set_paramv p2m [Fz 1] (h0, t0) = (Raise CodecError, s') /\
    deref s'.1 (_paramv s'.2) = Some (Vec [Fz 1]) /\
    params s'.2 = params t0 /\
    effective_ok s'.
Proof.
  split; [vm_compute; reflexivity |].
  split; [exact sample_effective_ok |].
  destruct (set_paramv_raises_after_rebinding p2m [Fz 1] h0 t0)
    as (s' & E & Hv & _ & _ & _ & Hp & _ & _ & Heff);
    [vm_compute; reflexivity |].
  exists s'. split; [exact E |]. split; [exact Hv |].
  split; [exact Hp | exact (Heff sample_effective_ok)].
Defined.

Lemma run_codec_consistent_witness :
  codec_consistent p2m m2p (h0, t0) /\
  after_each_call p2m m2p
    [SetMatrix zoom2; SetFrame zoom2; SetParamVector shift6] (h0, t0).
Proof.
  split; [exact sample_codec_consistent |].
  apply (run_codec_consistent p2m m2p _ (h0, t0) sample_codec_consistent).
  repeat constructor.
Defined.

Lemma init_default_witness :
  m2p affine eye3 = Some id6 /\ p2m affine id6 = Some eye3 /\
  init p2m m2p affine None None ∅ = init p2m m2p affine (Some id6) None ∅.
Proof.
  split; [vm_compute; reflexivity |]. split; [vm_compute; reflexivity |].
  refine (proj1 (init_default_is_identity p2m m2p affine id6 eye3 ∅ _ _));
    vm_compute; reflexivity.
Defined.

Lemma init_raises_witness :
  p2m affine [Fz 1] = None /\
  (init p2m m2p affine (Some [Fz 1]) None ∅).1 = Raise CodecError.
Proof.
  split; [vm_compute; reflexivity |].
  apply (init_raises_with_codec p2m m2p affine (Some [Fz 1]) None ∅).
  vm_compute. reflexivity.
Defined.

Lemma clone_copies_witness :
  deref h0 (_paramv t0) = Some (Vec id6) /\
  p2m (_ttype t0) id6 = Some eye3 /\
  deref h0 (_frame t0) = Some (Mat eye3) /\
  exists (c : tform) (h' : heap),
    clone p2m None (h0, t0) = (Return c, h') /\
    deref h' (_paramv c) = Some (Vec id6) /\ deref h0 (_paramv c) = None.
Proof.
  split; [vm_compute; reflexivity |]. split; [vm_compute; reflexivity |].
  split; [vm_compute; reflexivity |].
  destruct (clone_copies_parameters p2m id6 h0 t0 eye3 eye3)
    as (c & h' & E & _ & Hv & Hn & _);
    [vm_compute; reflexivity | vm_compute; reflexivity
     | vm_compute; reflexivity |].
  exists c, h'. split; [exact E |]. split; [exact Hv | exact Hn].
Defined.

Lemma clone_with_paramv_witness :
  p2m (_ttype t0) shift6 = Some (Mat3 (Fz 1) (Fz 0) (Fz 3) (Fz 0) (Fz 1) (Fz 4)
                                     (Fz 0) (Fz 0) (Fz 1)) /\
  deref h0 (_frame t0) = Some (Mat eye3) /\
  exists (c : tform) (h' : heap),
    clone p2m (Some shift6) (h0, t0) = (Return c, h') /\
    deref h' (_paramv c) = Some (Vec shift6) /\
    deref h' (_paramv t0) = Some (Vec id6).
Proof.
  split; [vm_compute; reflexivity |]. split; [vm_compute; reflexivity |].
  destruct (clone_with_paramv p2m shift6 h0 t0
              (Mat3 (Fz 1) (Fz 0) (Fz 3) (Fz 0) (Fz 1) (Fz 4)
                    (Fz 0) (Fz 0) (Fz 1)) eye3)
    as (c & h' & E & _ & Hv & _ & _ & _ & _ & _ & Hsrc & _);
    [vm_compute; reflexivity | vm_compute; reflexivity |].
  exists c, h'. split; [exact E |]. split; [exact Hv |].
  apply Hsrc. vm_compute. reflexivity.
Defined.

Lemma calls_after_clone_witness :
  let r := clone p2m None (h0, t0) in
  r = (Return c0, r.2) /\
  Forall (fun q : outcome unit * state =>
            forall (l : ref) (a : ndarray),
              r.2 !! l = Some a -> q.2.1 !! l = Some a)
         (run p2m m2p [SetParamVector shift6; SetFrame zoom2] (r.2, c0)).
Proof.
  cbv zeta.
  assert (E : clone p2m None (h0, t0)
              = (Return c0, (clone p2m None (h0, t0)).2))
    by (vm_compute; reflexivity).
  split; [exact E |].
  exact (proj1 (proj2 (calls_after_clone_keep_arrays p2m m2p None h0 _ t0 c0
                         [SetParamVector shift6; SetFrame zoom2] E))).
Defined.

Lemma inset_composes_witness :
  p2m affine [Fz 1; Fz 0; Fz 5; Fz 0; Fz 1; Fz 5]
    = Some (Mat3 (Fz 1) (Fz 0) (Fz 5) (Fz 0) (Fz 1) (Fz 5)
                 (Fz 0) (Fz 0) (Fz 1)) /\
  deref h0 (_matrix t0) = Some (Mat eye3) /\
  exists s' : state,
    inset p2m (Fz 100, Fz 100) (Width (Fz 5)) true (h0, t0) = (Return tt, s') /\
    _paramv s'.2 = _paramv t0 /\ _matrix s'.2 = _matrix t0.
Proof.
  split; [vm_compute; reflexivity |]. split; [vm_compute; reflexivity |].
  destruct (inset_composes_with_matrix p2m (Fz 100, Fz 100) (Width (Fz 5)) true
              h0 t0 eye3
              (Mat3 (Fz 1) (Fz 0) (Fz 5) (Fz 0) (Fz 1) (Fz 5)
                    (Fz 0) (Fz 0) (Fz 1)))
    as (s' & E & _ & _ & _ & _ & Hp & Hm & _);
    [vm_compute; reflexivity | vm_compute; reflexivity |].
  exists s'. split; [exact E |]. split; [exact Hp | exact Hm].
Defined.

Lemma inset_raises_witness :
  strict_p2m affine
    (inset_params
       (inset_scale (Fz 1, Fz 1)
          (resolved_bounds (Fz 1, Fz 1) (Width (Fz 0))) false)
       (resolved_bounds (Fz 1, Fz 1) (Width (Fz 0)))) = None /\
  exists s' : state,
    inset strict_p2m (Fz 1, Fz 1) (Width (Fz 0)) false (h0, t0)
      = (Raise CodecError, s') /\
    deref s'.1 (_output_shape s'.2) = Some (Vec [Fz 1; Fz 1]) /\
    _frame s'.2 = _frame t0.
Proof.
  split; [vm_compute; reflexivity |].
  destruct (inset_raises_after_output_shape strict_p2m (Fz 1, Fz 1)
              (Width (Fz 0)) false h0 t0)
    as (s' & E & Ho & Hf & _); [vm_compute; reflexivity |].
  exists s'. split; [exact E |]. split; [| exact Hf].
  rewrite Ho. vm_compute. reflexivity.
Defined.

(** A matrix outside the affine family: its last row is not (0, 0, 1). *)
Abbreviation not_affine :=
  (Mat3 (Fz 1) (Fz 0) (Fz 0) (Fz 0) (Fz 1) (Fz 0) (Fz 0) (Fz 0) (Fz 2)).

Lemma set_matrix_raises_witness :
  m2p (_ttype t0) not_affine = None /\
  exists s' : state,
    set_matrix m2p not_affine (h0, t0) = (Raise CodecError, s') /\
    deref s'.1 (_matrix s'.2) = Some (Mat not_affine) /\
    deref s'.1 (params s'.2) = Some (Mat eye3).
Proof.
  split; [vm_compute; reflexivity |].
  destruct (set_matrix_raises_after_rebinding m2p not_affine h0 t0)
    as (s' & E & Hm & _ & Hp & _ & _ & Hsub); [vm_compute; reflexivity |].
  exists s'. split; [exact E |]. split; [exact Hm |].
  rewrite Hp. apply (deref_subseteq h0 _ _ _ Hsub). vm_compute. reflexivity.
Defined.

Lemma init_establishes_witness :
  init p2m m2p affine None None ∅ = (Return t0, h0) /\
  well_formed (h0, t0) /\ effective_ok (h0, t0) /\
  codec_consistent p2m m2p (h0, t0).
Proof.
  assert (E : init p2m m2p affine None None ∅ = (Return t0, h0))
    by (vm_compute; reflexivity).
  split; [exact E |].
  destruct (init_establishes_invariants p2m m2p affine None None ∅ h0 t0 E)
    as (_ & Hw & He & Hc & _).
  split; [exact Hw |]. split; [exact He | exact Hc].
Defined.

Lemma imtransform_finite_cval_witness :
  F64.isfinite (Fz 7) = true /\
  imtransform Nearest.warp img_inf 0 (Fz 7) (h0, t0)
    = ([WarpCall img_inf eye3 0 constant F64.nan true None],
       Return [[Fz 1; Fz 7]]) /\
  forallb (forallb F64.isfinite) [[Fz 1; Fz 7]] = true.
Proof.
  split; [reflexivity |].
  assert (E : imtransform Nearest.warp img_inf 0 (Fz 7) (h0, t0)
              = ([WarpCall img_inf eye3 0 constant F64.nan true None],
                 Return [[Fz 1; Fz 7]]))
    by (vm_compute; reflexivity).
  split; [exact E |].
  exact (imtransform_finite_cval_all_finite Nearest.warp img_inf 0%nat (Fz 7)
           (h0, t0) _ _ eq_refl E).
Defined.

(** The sample instance shifted by (3, 4): part of a 2x2 image falls
    outside. *)
Abbreviation shifted := (set_paramv p2m shift6 (h0, t0)).2.

Lemma imtransform_nonfinite_cval_witness :
  F64.isfinite F64.nan = false /\
  exists (log : list warp_call) (out : image),
    imtransform Nearest.warp img4 0 F64.nan shifted = (log, Return out) /\
    out = [[F64.nan; F64.nan]; [F64.nan; F64.nan]] /\
    exists c : warp_call, log = [c] /\ Nearest.warp c = Some out.
Proof.
  split; [reflexivity |].
  eexists _, _. split; [vm_compute; reflexivity |].
  split; [reflexivity |].
  apply (imtransform_nonfinite_cval_raw Nearest.warp img4 0%nat F64.nan shifted);
    [reflexivity | vm_compute; reflexivity].
Defined.

Lemma imtransform_pixelwise_witness :
  exists (log : list warp_call) (out : image),
    imtransform Nearest.warp img_inf 0 (Fz 0) (h0, t0) = (log, Return out) /\
    exists (c : warp_call) (timage : image),
      log = [c] /\ Nearest.warp c = Some timage /\
      length out = length timage.
Proof.
  eexists _, _. split; [vm_compute; reflexivity |].
  destruct (imtransform_pixelwise Nearest.warp img_inf 0%nat (Fz 0) (h0, t0)
              [WarpCall img_inf eye3 0 constant F64.nan true None]
              [[Fz 1; F64.max_float]])
    as (c & timage & Hl & Hw & Hlen & _); [vm_compute; reflexivity |].
  exists c, timage. split; [exact Hl |]. split; [exact Hw | exact Hlen].
Defined.

Lemma inset_width_crop_witness :
  let r := inset p2m (Fz 480, Fz 500) (Width (Fz 8)) true (h0, t0) in
  r = (Return tt, r.2) /\
  deref r.2.1 (_output_shape r.2.2) = Some (Vec [Fz 464; Fz 484]).
Proof.
  cbv zeta.
  assert (E : inset p2m (Fz 480, Fz 500) (Width (Fz 8)) true (h0, t0)
              = (Return tt,
                 (inset p2m (Fz 480, Fz 500) (Width (Fz 8)) true (h0, t0)).2))
    by (vm_compute; reflexivity).
  split; [exact E |].
  refine (proj1 (inset_width_crop p2m 480 500 8 h0 t0 _ _ _ _ E)); lia.
Defined.

Lemma inset_size_crop_witness :
  let r := inset p2m (Fz 101, Fz 64) (Size (Fz 50) (Fz 64)) true (h0, t0) in
  r = (Return tt, r.2) /\
  deref r.2.1 (_output_shape r.2.2) = Some (Vec [Fz 50; Fz 64]).
Proof.
  cbv zeta.
  assert (E : inset p2m (Fz 101, Fz 64) (Size (Fz 50) (Fz 64)) true (h0, t0)
              = (Return tt,
                 (inset p2m (Fz 101, Fz 64) (Size (Fz 50) (Fz 64)) true
                        (h0, t0)).2))
    by (vm_compute; reflexivity).
  split; [exact E |].
  refine (proj1 (inset_size_crop p2m 101 64 50 64 h0 t0 _ _ _ _ _ E)); lia.
Defined.

Lemma inset_full_window_witness :
  let r := inset p2m (Fz 10, Fz 10) (Box (Fz 0) (Fz 0) (Fz 9) (Fz 9)) false
                 (h0, t0) in
  r = (Return tt, r.2) /\
  deref r.2.1 (_frame r.2.2) = Some (Mat eye3).
Proof.
  cbv zeta.
  assert (E : inset p2m (Fz 10, Fz 10) (Box (Fz 0) (Fz 0) (Fz 9) (Fz 9)) false
                    (h0, t0)
              = (Return tt,
                 (inset p2m (Fz 10, Fz 10) (Box (Fz 0) (Fz 0) (Fz 9) (Fz 9))
                        false (h0, t0)).2))
    by (vm_compute; reflexivity).
  split; [exact E |].
  destruct (inset_full_window_zoom p2m 10 10 h0 t0 _ ltac:(lia) ltac:(lia) E)
    as (_ & fm & Hc & Hf).
  rewrite Hf. vm_compute in Hc. inversion Hc. reflexivity.
Defined.


End Checks.
